(** * Micropay: the resilient request-dispatch core

    A shallow embedding of three pieces of the gateway, each translated from
    its JavaScript source:

    - [CircuitBreaker]   (src/middleware/circuitBreaker.js)
    - [ServiceRegistry]  (src/middleware/serviceDiscovery.js)
    - [Gateway]          (the [proxyRequest] function of the API gateway)
    - [Auth]             (src/middleware/auth.js)
    - [MessageQueue]     (src/services/messaging/messageQueue.js)
    - [Database]         (src/config/database.js)

    JavaScript numbers that hold counters and millisecond timestamps are
    modelled as [Z]: every value involved is an integer far below 2^53, the
    range in which double arithmetic on integers is exact. *)

From stdpp Require Import base decidable option list strings gmap fin_maps.
From Stdlib Require Import ZArith Lia.

Local Open Scope Z_scope.

(** ** Values shared by the three modules *)

(** JavaScript values, as far as the code below looks into them.  An
    object lists each of its own enumerable keys once, in order. *)
#[warnings="-register-all"]
Inductive Value :=
  | VUndefined
  | VNull
  | VBool (b : bool)
  | VNumber (n : Z)
  | VString (s : string)
  | VDate (ms : Z)
  | VArray (elems : list Value)
  | VObject (props : list (string * Value)).

(** [v === s] for a string [s], where [v] is the result of a property
    read ([None]: the property is absent and the read gives [undefined]). *)
Definition strict_eq_string (v : option Value) (s : string) : bool :=
  match v with
  | Some (VString s') => bool_decide (s' = s)
  | _ => false
  end.

(** The response object of axios, and what [res.status(s).json(d)] sends. *)
Record HttpResponse := mkResponse {
  status : Z;
  data : Value
}.

(** A thrown JavaScript [Error] object, with the two extra properties that
    the gateway inspects on axios errors. *)
Record JsError := mkError {
  message : string;
  code : option string;
  response : option HttpResponse
}.

(** [new Error(msg)] *)
Definition Error (msg : string) : JsError :=
  {| message := msg; code := None; response := None |}.

(** How an invocation ends: [return r] or [throw e]. *)
Inductive Completion (R : Type) :=
  | Return (r : R)
  | Throw (e : JsError).
Arguments Return {R} _.
Arguments Throw {R} _.

(** ** The circuit breaker *)

Module CircuitBreaker.

Inductive State := CLOSED | OPEN | HALF_OPEN.

#[global] Instance State_eq_dec : EqDecision State.
Proof. solve_decision. Defined.

Record Breaker := mkBreaker {
  threshold : Z;
  timeout : Z;
  resetTimeout : Z;
  failures : Z;
  nextAttempt : Z;
  state : State
}.

(** [constructor(threshold = 5, timeout = 60000, resetTimeout = 30000)];
    an argument left out (or [undefined]) is [None].  [now] is the value of
    [Date.now()] when the constructor runs. *)
Definition create (th to rt : option Z) (now : Z) : Breaker :=
  {| threshold := default 5 th;
     timeout := default 60000 to;
     resetTimeout := default 30000 rt;
     failures := 0;
     nextAttempt := now;
     state := CLOSED |}.

Definition set_state (s : State) (b : Breaker) : Breaker :=
  {| threshold := threshold b; timeout := timeout b;
     resetTimeout := resetTimeout b; failures := failures b;
     nextAttempt := nextAttempt b; state := s |}.

(** [recordFailure()]; [now] is the [Date.now()] it may read. *)
Definition recordFailure (b : Breaker) (now : Z) : Breaker :=
  let n := failures b + 1 in
  if decide (threshold b <= n)
  then {| threshold := threshold b; timeout := timeout b;
          resetTimeout := resetTimeout b; failures := n;
          nextAttempt := now + resetTimeout b; state := OPEN |}
  else {| threshold := threshold b; timeout := timeout b;
          resetTimeout := resetTimeout b; failures := n;
          nextAttempt := nextAttempt b; state := state b |}.

(** [reset()] *)
Definition reset (b : Breaker) : Breaker :=
  {| threshold := threshold b; timeout := timeout b;
     resetTimeout := resetTimeout b; failures := 0;
     nextAttempt := nextAttempt b; state := CLOSED |}.

(** [getState()] *)
Definition getState (b : Breaker) : State := state b.

(** An open (or probing) breaker has used up its failure budget. *)
Definition budget_spent (b : Breaker) : Prop :=
  state b ≠ CLOSED → threshold b <= failures b.

(** What holds of a breaker between two operations. *)
Definition at_rest (b : Breaker) : Prop :=
  budget_spent b ∧ state b ≠ HALF_OPEN.

Section Call.
(** [A] is the type of the argument list [...args], [R] of the values the
    wrapped operation resolves to. *)
Context {A R : Type}.

(** The wrapped operation: given its arguments and the clock at the time
    it is invoked, it settles (resolves or rejects; a synchronous throw
    is caught by the same [try]) and the clock has moved to the second
    component.  The operation does not call back into the breaker. *)
Definition Func : Type := A → Z → Completion R * Z.

(** What the operation was invoked with, and the breaker state that was
    current at that moment. *)
Record Invocation := mkInvocation {
  inv_args : A;
  inv_state : State
}.

(** The clock read by [Date.now()] and the history of invocations of the
    wrapped operation (what a jest mock records in [mock.calls]). *)
Record World := mkWorld {
  clock : Z;
  calls : list Invocation
}.

(** Lines 56-61 of [call]: the check made before the [try]. *)
Definition gate (b : Breaker) (now : Z) : JsError + Breaker :=
  match state b with
  | OPEN =>
      if decide (now < nextAttempt b)
      then inl (Error "Circuit breaker is OPEN")
      else inr (set_state HALF_OPEN b)
  | _ => inr b
  end.

(** [await func(...args)] *)
Definition invoke (func : Func) (args : A) (b : Breaker) (w : World)
  : Completion R * World :=
  let '(c, t) := func args (clock w) in
  (c, {| clock := t;
         calls := calls w ++ [ {| inv_args := args; inv_state := state b |} ] |}).

(** Lines 63-70 of [call]: the [try]/[catch]. *)
Definition attempt (func : Func) (args : A) (b : Breaker) (w : World)
  : Completion R * Breaker * World :=
  let '(c, w1) := invoke func args b w in
  match c with
  | Return r => (Return r, reset b, w1)
  | Throw e => (Throw e, recordFailure b (clock w1), w1)
  end.

(** [async call(func, ...args)] *)
Definition call (func : Func) (args : A) (b : Breaker) (w : World)
  : Completion R * Breaker * World :=
  match gate b (clock w) with
  | inl e => (Throw e, b, w)
  | inr b1 => attempt func args b1 w
  end.

(** A series of calls made one after the other on the same breaker. *)
Fixpoint call_each (ops : list (Func * A)) (b : Breaker) (w : World)
  : list (Completion R) * Breaker * World :=
  match ops with
  | [] => ([], b, w)
  | (func, args) :: ops' =>
      let '(c, b1, w1) := call func args b w in
      let '(cs, b2, w2) := call_each ops' b1 w1 in
      (c :: cs, b2, w2)
  end.

(** The breakers that sequential use of the public methods can produce. *)
Inductive Reachable : Breaker → Prop :=
  | Reachable_create th to rt now :
      Reachable (create th to rt now)
  | Reachable_call b func args w :
      Reachable b → Reachable (call func args b w).1.2
  | Reachable_recordFailure b now :
      Reachable b → Reachable (recordFailure b now)
  | Reachable_reset b :
      Reachable b → Reachable (reset b).

(** The operation rejects whatever it is given. *)
Definition Fails (func : Func) : Prop :=
  ∀ args now, ∃ e t, func args now = (Throw e, t).

End Call.

Arguments Func : clear implicits.
Arguments World : clear implicits.
Arguments Invocation : clear implicits.

End CircuitBreaker.

(** ** The service registry *)

Module ServiceRegistry.

(** A registered instance: a plain object, as a map from property names to
    values.  [register] builds a fresh object for every entry, so no object
    sits at two places of the registry and updating one entry in place is
    the same as replacing it by the updated copy. *)
Abbreviation ServiceInstance := (gmap string Value).

(** [this.services]: the [Map] from service names to arrays of instances. *)
Abbreviation Services := (gmap string (list ServiceInstance)).

(** [new ServiceRegistry()] *)
Definition empty_registry : Services := ∅.

(** [{ ...instance, registeredAt: new Date(), status: 'healthy' }] *)
Definition new_entry (instance : ServiceInstance) (now : Z) : ServiceInstance :=
  <["status" := VString "healthy"]> (<["registeredAt" := VDate now]> instance).

(** [register(serviceName, instance)]; [now] is the time [new Date()]
    reads.  The [console.log] at the end leaves the registry alone. *)
Definition register (services : Services) (serviceName : string)
    (instance : ServiceInstance) (now : Z) : Services :=
  let services1 :=
    if decide (is_Some (services !! serviceName)) then services
    else <[serviceName := []]> services in
  alter (λ instances, instances ++ [new_entry instance now]) serviceName services1.

(** [instance.status === 'healthy'] *)
Definition is_healthy (instance : ServiceInstance) : bool :=
  strict_eq_string (instance !! "status") "healthy".

(** [discover(serviceName)] *)
Definition discover (services : Services) (serviceName : string)
    : list ServiceInstance :=
  let instances := default [] (services !! serviceName) in
  filter (λ instance, is_healthy instance = true) instances.

(** The double product [r * n] for a double [r = m / 2^53] below 1 and an
    integer [n] below 2^53 (an array length is below 2^32), in units of
    2^-53: the exact product [m * n] rounded to 53 significant bits, ties
    to even. *)
Definition double_mul (m n : Z) : Z :=
  let p := m * n in
  let s := Z.log2 p - 52 in
  if decide (s <= 0) then p
  else
    let q := p / 2 ^ s in
    let r := p mod 2 ^ s in
    let h := 2 ^ (s - 1) in
    let q' := if decide (r < h) then q
              else if decide (h < r) then q + 1
              else if Z.even q then q else q + 1 in
    q' * 2 ^ s.

(** [Math.floor(Math.random() * n)], where [Math.random()] has drawn the
    double [m / 2^53]. *)
Definition random_index (m : Z) (n : nat) : nat :=
  Z.to_nat (double_mul m (Z.of_nat n) / 2 ^ 53).

(** [getHealthyInstance(serviceName)].  [m] is the draw of [Math.random()],
    in units of 2^-53.  Reading an array past its end gives [undefined],
    here [None]. *)
Definition getHealthyInstance (services : Services) (serviceName : string)
    (m : Z) : Completion (option ServiceInstance) :=
  let instances := discover services serviceName in
  if decide (length instances = 0%nat)
  then Throw (Error ("No healthy instances found for service: " +:+ serviceName))
  else Return (instances !! random_index m (length instances)).

(** [instance.id === instanceId] *)
Definition has_id (instanceId : string) (instance : ServiceInstance) : bool :=
  strict_eq_string (instance !! "id") instanceId.

(** [unregister(serviceName, instanceId)] *)
Definition unregister (services : Services) (serviceName instanceId : string)
    : Services :=
  match services !! serviceName with
  | Some instances =>
      <[serviceName := filter (λ i, has_id instanceId i ≠ true) instances]> services
  | None => services
  end.

(** [markUnhealthy(serviceName, instanceId)] *)
Definition markUnhealthy (services : Services) (serviceName instanceId : string)
    : Services :=
  match services !! serviceName with
  | Some instances =>
      match list_find (λ i, has_id instanceId i = true) instances with
      | Some (k, instance) =>
          <[serviceName :=
              <[k := <["status" := VString "unhealthy"]> instance]> instances]>
            services
      | None => services
      end
  | None => services
  end.

(** The instance has a [status] (an [id]) property that is the string [s]. *)
Definition status_is (s : string) (instance : ServiceInstance) : Prop :=
  instance !! "status" = Some (VString s).

Definition id_is (s : string) (instance : ServiceInstance) : Prop :=
  instance !! "id" = Some (VString s).

End ServiceRegistry.

(** ** The gateway's proxy function *)

Module Gateway.
Import ServiceRegistry.

(** The parts of the inbound express request that [proxyRequest] reads. *)
Record Request := mkRequest {
  method : string;
  headers : gmap string Value;
  body : Value
}.

(** The axios request configuration.  [url] keeps the two parts of the
    template literal [`${serviceInstance.url}${path}`] side by side. *)
Record Config := mkConfig {
  cfg_method : string;
  cfg_url : Value * string;
  cfg_headers : gmap string Value;
  cfg_timeout : Z;
  cfg_data : option Value
}.

(** Truthiness of a value in a condition. *)
Definition truthy (v : Value) : bool :=
  match v with
  | VUndefined | VNull => false
  | VBool b => b
  | VNumber n => negb (n =? 0)
  | VString s => negb (bool_decide (s = ""))
  | VDate _ | VArray _ | VObject _ => true
  end.

(** [Object.keys(v).length] for a value that is not [null] or [undefined]. *)
Definition keys_length (v : Value) : nat :=
  match v with
  | VObject props => length props
  | VArray elems => length elems
  | VString s => String.length s
  | _ => 0%nat
  end.

(** The configuration built on lines 244-256. *)
Definition make_config (req : Request) (serviceInstance : ServiceInstance)
    (path : string) : Config :=
  {| cfg_method := method req;
     cfg_url := (default VUndefined (serviceInstance !! "url"), path);
     cfg_headers := <["host" := VUndefined]> (headers req);
     cfg_timeout := 10000;
     cfg_data :=
       if truthy (body req) && bool_decide (0 < keys_length (body req))%nat
       then Some (body req) else None |}.

(** [res.status(s).json({ error: e, message: m })] *)
Definition error_reply (s : Z) (e m : string) : HttpResponse :=
  {| status := s;
     data := VObject [("error", VString e); ("message", VString m)] |}.

Section Proxy.
(** The remote side: how the axios call for a configuration settles. *)
Variable axios : Config → Completion HttpResponse.

(** The [try] block: what it completes with (the reply it sent, or the
    value it threw) and the outbound calls it issued.  With no instance
    in hand, reading [serviceInstance.url] throws a [TypeError]. *)
Definition try_proxy (services : Services) (m : Z) (req : Request)
    (serviceName path : string) : Completion HttpResponse * list Config :=
  match getHealthyInstance services serviceName m with
  | Throw e => (Throw e, [])
  | Return None =>
      (Throw (Error "Cannot read properties of undefined (reading 'url')"), [])
  | Return (Some serviceInstance) =>
      let config := make_config req serviceInstance path in
      match axios config with
      | Return response =>
          (Return {| status := status response; data := data response |},
           [config])
      | Throw e => (Throw e, [config])
      end
  end.

(** The [catch] block. *)
Definition catch_proxy (serviceName : string) (error : JsError) : HttpResponse :=
  if decide (code error = Some "ECONNREFUSED") then
    error_reply 503 "Service unavailable"
      (serviceName +:+ " service is not available")
  else if decide (code error = Some "ECONNABORTED") then
    error_reply 504 "Gateway timeout" (serviceName +:+ " service timed out")
  else
    match response error with
    | Some r => {| status := status r; data := data r |}
    | None =>
        error_reply 500 "Internal gateway error"
          "Error communicating with service"
    end.

(** [proxyRequest(req, res, serviceName, path = '')]: the reply sent on
    [res] and the outbound calls issued.  [m] is the draw of
    [Math.random()] used by the registry. *)
Definition proxyRequest (services : Services) (m : Z) (req : Request)
    (serviceName : string) (path : option string)
    : HttpResponse * list Config :=
  match try_proxy services m req serviceName (default "" path) with
  | (Return reply, out) => (reply, out)
  | (Throw error, out) => (catch_proxy serviceName error, out)
  end.

End Proxy.



Definition internal_gateway_error : HttpResponse :=
  error_reply 500 "Internal gateway error" "Error communicating with service".

End Gateway.

(** ** Scenarios of the test-suite *)

Module Scenarios.
Import CircuitBreaker ServiceRegistry Gateway.

(** circuitBreaker.test.js: [new CircuitBreaker(2, 1000, 100)], a mock that
    rejects with 'Service error' and one that resolves to 'success'; each
    takes one millisecond. *)
Definition fresh : Breaker := create (Some 2) (Some 1000) (Some 100) 0.

Definition service_error : Func unit string :=
  λ _ now, (Throw (Error "Service error"), now + 1).

Definition success : Func unit string :=
  λ _ now, (Return "success", now + 1).

Definition start : World unit := {| clock := 0; calls := [] |}.

(** The breaker and the world after two failing calls. *)
Definition tripped : Breaker :=
  (call_each [(service_error, ()); (service_error, ())] fresh start).1.2.

Definition after_trip : World unit :=
  (call_each [(service_error, ()); (service_error, ())] fresh start).2.

(** The same world 150 ms later. *)
Definition later : World unit :=
  {| clock := clock after_trip + 150; calls := calls after_trip |}.

(** serviceDiscovery.test.js: two instances of 'test-service'. *)
Definition test_1 : ServiceInstance :=
  <["id" := VString "test-1"]>
    (<["url" := VString "http://localhost:3001"]>
       (<["version" := VString "1.0.0"]> ∅)).

Definition test_2 : ServiceInstance :=
  <["id" := VString "test-2"]>
    (<["url" := VString "http://localhost:3002"]>
       (<["version" := VString "1.0.0"]> ∅)).

Definition two_instances : Services :=
  register (register empty_registry "test-service" test_1 1000)
    "test-service" test_2 1001.

(** A request through the gateway and a remote side that answers 200. *)
Definition get_users : Request :=
  {| method := "GET";
     headers := <["accept" := VString "application/json"]> ∅;
     body := VObject [] |}.

Definition remote_ok : Config → Completion HttpResponse :=
  λ _, Return {| status := 200; data := VObject [("users", VArray [])] |}.

End Scenarios.

(** ** The authentication middleware *)

Module Auth.
Import Stdlib.Strings.Ascii.
Import Gateway.

(** [s.split(sep)] for a separator of one character. *)
Fixpoint split_on (sep : Ascii.ascii) (s : string) : list string :=
  match s with
  | EmptyString => [EmptyString]
  | String c s' =>
      if decide (c = sep) then EmptyString :: split_on sep s'
      else match split_on sep s' with
           | word :: words => String c word :: words
           | [] => [String c EmptyString]
           end
  end.

(** What the middleware has done when it returns: the value it stored in
    [req.user], whether it called [next()], and the reply it sent on
    [res]. *)
Record AuthResult := mkAuthResult {
  req_user : option Value;
  next_called : bool;
  reply : option HttpResponse
}.

Definition access_denied : HttpResponse :=
  error_reply 401 "Access denied" "Token requerido".

Definition invalid_token : HttpResponse :=
  error_reply 403 "Invalid token" "Token inválido o expirado".

Section Middleware.
(** [jwt.verify(token, JWT_SECRET)]: the decoded payload, or a throw. *)
Variable verify : string → Completion Value.
(** The rest of the middleware chain, run by [next()]; it sees [req.user]. *)
Variable next : Value → Completion unit.

(** The [try]/[catch] of lines 18-29.  Reading [decoded.userId] for the
    log line throws when [decoded] is [null] or [undefined]. *)
Definition verify_and_continue (token : string) : AuthResult :=
  match verify token with
  | Throw _ =>
      {| req_user := None; next_called := false; reply := Some invalid_token |}
  | Return decoded =>
      match decoded with
      | VUndefined | VNull =>
          {| req_user := Some decoded; next_called := false;
             reply := Some invalid_token |}
      | _ =>
          match next decoded with
          | Return _ =>
              {| req_user := Some decoded; next_called := true; reply := None |}
          | Throw _ =>
              {| req_user := Some decoded; next_called := true;
                 reply := Some invalid_token |}
          end
      end
  end.

Definition deny : AuthResult :=
  {| req_user := None; next_called := false; reply := Some access_denied |}.

(** [authenticateToken(req, res, next)].  A header value that is truthy
    but not a string has no [split] method: the call throws before the
    [try]. *)
Definition authenticateToken (req : Request) : Completion AuthResult :=
  match default VUndefined (headers req !! "authorization") with
  | VString authHeader =>
      if truthy (VString authHeader) then
        match split_on " "%char authHeader !! 1%nat with
        | Some token =>
            if truthy (VString token)
            then Return (verify_and_continue token)
            else Return deny
        | None => Return deny
        end
      else Return deny
  | authHeader =>
      if truthy authHeader
      then Throw (Error "authHeader.split is not a function")
      else Return deny
  end.

End Middleware.

(** A request whose only header is [authorization: value]. *)
Definition with_authorization (value : string) : Request :=
  {| method := "GET";
     headers := <["authorization" := VString value]> ∅;
     body := VObject [] |}.

(** The string has no space in it. *)
Fixpoint no_space (s : string) : Prop :=
  match s with
  | EmptyString => True
  | String c s' => c ≠ " "%char ∧ no_space s'
  end.

End Auth.

(** ** The message queue *)

Module MessageQueue.

(** A queued message.  [msg_timestamp] is the instant whose ISO rendering
    the code stores in [timestamp]. *)
Record Message := mkMessage {
  msg_id : string;
  msg_body : Value;
  msg_timestamp : Z;
  msg_attempts : Z
}.

Section Queues.
(** The state the subscribers work on.  A subscriber does not call back
    into the queue object. *)
Context {S : Type}.

Definition Callback : Type := Message → S → Completion unit * S.

(** [this.queues] and [this.subscribers]. *)
Record Queue := mkQueue {
  queues : gmap string (list Message);
  subscribers : gmap string (list Callback)
}.

(** [new MessageQueue()] *)
Definition empty_queue : Queue := {| queues := ∅; subscribers := ∅ |}.

(** [createQueue(queueName)] *)
Definition createQueue (mq : Queue) (queueName : string) : Queue :=
  if decide (is_Some (queues mq !! queueName)) then mq
  else {| queues := <[queueName := []]> (queues mq);
          subscribers := subscribers mq |}.

(** [notifySubscribers(queueName, message)]: each callback in turn, a
    throw being logged and dropped. *)
Definition notifySubscribers (mq : Queue) (queueName : string)
    (message : Message) (st : S) : S :=
  let callbacks := default [] (subscribers mq !! queueName) in
  foldl (λ st callback,
           match callback message st with
           | (Return _, st') => st'
           | (Throw _, st') => st'
           end) st callbacks.

(** [sendMessage(queueName, message)]; [id] is the uuid drawn, [now] the
    time read.  Gives back the id, the queue object and the subscribers'
    state. *)
Definition sendMessage (mq : Queue) (queueName : string) (message : Value)
    (id : string) (now : Z) (st : S) : string * Queue * S :=
  let mq1 := createQueue mq queueName in
  let messageWithId :=
    {| msg_id := id; msg_body := message; msg_timestamp := now;
       msg_attempts := 0 |} in
  let mq2 :=
    {| queues := alter (λ queue, queue ++ [messageWithId]) queueName (queues mq1);
       subscribers := subscribers mq1 |} in
  (msg_id messageWithId, mq2, notifySubscribers mq2 queueName messageWithId st).

(** [receiveMessages(queueName, maxMessages = 1)], for an integer
    [maxMessages]: [splice(0, maxMessages)] takes nothing when the count is
    negative.  For an unknown name the splice works on a fresh array and
    the object stays as it is. *)
Definition receiveMessages (mq : Queue) (queueName : string)
    (maxMessages : option Z) : list Message * Queue :=
  let n := Z.to_nat (default 1 maxMessages) in
  match queues mq !! queueName with
  | Some queue =>
      (take n queue,
       {| queues := <[queueName := drop n queue]> (queues mq);
          subscribers := subscribers mq |})
  | None => ([], mq)
  end.

(** [subscribe(queueName, callback)] *)
Definition subscribe (mq : Queue) (queueName : string) (callback : Callback)
    : Queue :=
  let subscribers1 :=
    if decide (is_Some (subscribers mq !! queueName)) then subscribers mq
    else <[queueName := []]> (subscribers mq) in
  {| queues := queues mq;
     subscribers := alter (λ callbacks, callbacks ++ [callback]) queueName
                      subscribers1 |}.

(** [getQueueStats(queueName)]: [messageCount], [subscriberCount] and
    [messages]. *)
Definition getQueueStats (mq : Queue) (queueName : string)
    : nat * nat * list Message :=
  let queue := default [] (queues mq !! queueName) in
  let callbacks := default [] (subscribers mq !! queueName) in
  (length queue, length callbacks, queue).

End Queues.

Arguments Callback : clear implicits.
Arguments Queue : clear implicits.

End MessageQueue.

(** ** The in-memory database *)

Module Database.
Import Gateway.

(** A stored record: a plain object.  Every record is a fresh object
    literal built by its handler, so no object is stored twice. *)
Abbreviation Row := (gmap string Value).

(** A [Map] from ids to records: its entries in insertion order. *)
Abbreviation Table := (list (string * gmap string Value)).

(** [table.set(key, value)]: a key already there keeps its place. *)
Fixpoint table_set (table : Table) (key : string) (value : Row) : Table :=
  match table with
  | [] => [(key, value)]
  | (k, v) :: rest =>
      if decide (k = key) then (key, value) :: rest
      else (k, v) :: table_set rest key value
  end.

(** [table.get(key)]; [None] is [undefined]. *)
Fixpoint table_get (table : Table) (key : string) : option Row :=
  match table with
  | [] => None
  | (k, v) :: rest => if decide (k = key) then Some v else table_get rest key
  end.

(** [table.delete(key)]: whether the key was there, and the table
    without it. *)
Definition table_delete (table : Table) (key : string) : bool * Table :=
  (bool_decide (is_Some (table_get table key)),
   filter (λ entry, entry.1 ≠ key) table).

(** [Array.from(table.values())] *)
Definition table_values (table : Table) : list Row := table.*2.

Record Db := mkDb {
  users : Table;
  payments : Table;
  orders : Table;
  notifications : Table
}.

(** [new InMemoryDatabase()] *)
Definition empty_db : Db :=
  {| users := []; payments := []; orders := []; notifications := [] |}.

Section Clock.
(** [new Date(now).toISOString()] *)
Variable toISOString : Z → string.

(** [record.id = id; record.createdAt = new Date().toISOString()] *)
Definition stamp (record : Row) (id : string) (now : Z) : Row :=
  <["createdAt" := VString (toISOString now)]> (<["id" := VString id]> record).

(** [record.status = record.status || 'pending'] *)
Definition default_status (record : Row) : Row :=
  let current := default VUndefined (record !! "status") in
  <["status" := if truthy current then current else VString "pending"]> record.

(** [Object.assign(record, updates);
     record.updatedAt = new Date().toISOString()] *)
Definition apply_updates (record updates : Row) (now : Z) : Row :=
  <["updatedAt" := VString (toISOString now)]> (updates ∪ record).

(** [createUser(user)]; [id] is the uuid drawn, [now] the time read. *)
Definition createUser (db : Db) (user : Row) (id : string) (now : Z)
    : Row * Db :=
  let user' := stamp user id now in
  (user',
   {| users := table_set (users db) id user'; payments := payments db;
      orders := orders db; notifications := notifications db |}).

(** [getUserById(id)] *)
Definition getUserById (db : Db) (id : string) : option Row :=
  table_get (users db) id.

(** [getUserByEmail(email)], for a string [email]; [None] is [null]. *)
Definition getUserByEmail (db : Db) (email : string) : option Row :=
  snd <$> list_find (λ user, strict_eq_string (user !! "email") email = true)
            (table_values (users db)).

(** [getAllUsers()] *)
Definition getAllUsers (db : Db) : list Row := table_values (users db).

(** [updateUser(id, updates)]; [None] is [null]. *)
Definition updateUser (db : Db) (id : string) (updates : Row) (now : Z)
    : option Row * Db :=
  match table_get (users db) id with
  | Some user =>
      let user' := apply_updates user updates now in
      (Some user',
       {| users := table_set (users db) id user'; payments := payments db;
          orders := orders db; notifications := notifications db |})
  | None => (None, db)
  end.

(** [deleteUser(id)] *)
Definition deleteUser (db : Db) (id : string) : bool * Db :=
  let '(found, users') := table_delete (users db) id in
  (found,
   {| users := users'; payments := payments db; orders := orders db;
      notifications := notifications db |}).

(** [createPayment(payment)] *)
Definition createPayment (db : Db) (payment : Row) (id : string) (now : Z)
    : Row * Db :=
  let payment' := default_status (stamp payment id now) in
  (payment',
   {| users := users db; payments := table_set (payments db) id payment';
      orders := orders db; notifications := notifications db |}).

(** [getPaymentById(id)] *)
Definition getPaymentById (db : Db) (id : string) : option Row :=
  table_get (payments db) id.

(** [getAllPayments()] *)
Definition getAllPayments (db : Db) : list Row :=
  table_values (payments db).

(** [updatePayment(id, updates)] *)
Definition updatePayment (db : Db) (id : string) (updates : Row) (now : Z)
    : option Row * Db :=
  match table_get (payments db) id with
  | Some payment =>
      let payment' := apply_updates payment updates now in
      (Some payment',
       {| users := users db; payments := table_set (payments db) id payment';
          orders := orders db; notifications := notifications db |})
  | None => (None, db)
  end.

End Clock.

(** The record has an [email] property that is the string [email]. *)
Definition email_is (email : string) (user : Row) : Prop :=
  user !! "email" = Some (VString email).

End Database.

(** ** More scenarios *)

Module MoreScenarios.
Import CircuitBreaker ServiceRegistry Gateway Auth MessageQueue Scenarios.

(** [timeout] replaced, everything else kept. *)
Definition with_timeout (t : Z) (b : Breaker) : Breaker :=
  {| threshold := threshold b; timeout := t;
     resetTimeout := resetTimeout b; failures := failures b;
     nextAttempt := nextAttempt b; state := state b |}.

(** 'test-1' registered twice, as after a restart of the service. *)
Definition registered_twice : Services :=
  register two_instances "test-service" test_1 2000.

(** A verifier that accepts the token 'good' only, and a chain that runs
    to its end. *)
Definition verify_good : string → Completion Value :=
  λ token,
    if decide (token = "good")
    then Return (VObject [("userId", VString "user123")])
    else Throw (Error "invalid token").

Definition next_ok : Value → Completion unit := λ _, Return ().

(** Subscribers that count the messages they see; the second one throws
    after counting. *)
Definition counting : Callback nat := λ _ n, (Return (), Datatypes.S n).

Definition counting_then_throwing : Callback nat :=
  λ _ n, (Throw (Error "subscriber failed"), Datatypes.S n).

Definition two_subscribers : Queue nat :=
  subscribe (subscribe empty_queue "payment-events" counting_then_throwing)
    "payment-events" counting.

(** A rendering of instants for the database scenarios, and a user. *)
Definition iso : Z → string :=
  λ now, if decide (now = 0) then "1970-01-01T00:00:00.000Z" else "later".

Definition alice : gmap string Value :=
  <["email" := VString "test@example.com"]>
    (<["name" := VString "Test User"]> ∅).

End MoreScenarios.

(** * Properties of the circuit breaker *)

Module BreakerProofs.
Import CircuitBreaker.

Section Sequential.
Context {A R : Type}.
Implicit Types (b : Breaker) (w : World A) (func : Func A R) (args : A).

Lemma recordFailure_fields b now :
  threshold (recordFailure b now) = threshold b ∧
  resetTimeout (recordFailure b now) = resetTimeout b ∧
  failures (recordFailure b now) = failures b + 1.
Proof. unfold recordFailure. case_decide; simpl; auto. Qed.

Lemma recordFailure_below b now :
  failures b + 1 < threshold b →
  state (recordFailure b now) = state b ∧
  nextAttempt (recordFailure b now) = nextAttempt b.
Proof. intros Hlt. unfold recordFailure. case_decide; simpl; [lia | auto]. Qed.

Lemma recordFailure_reaches b now :
  threshold b <= failures b + 1 →
  state (recordFailure b now) = OPEN ∧
  nextAttempt (recordFailure b now) = now + resetTimeout b.
Proof. intros Hge. unfold recordFailure. case_decide; simpl; [auto | lia]. Qed.

Lemma gate_not_open b now :
  state b ≠ OPEN → gate b now = inr b.
Proof. unfold gate. destruct (state b); congruence. Qed.

Lemma attempt_throw func args b w e t :
  func args (clock w) = (Throw e, t) →
  attempt func args b w =
    (Throw e, recordFailure b t,
     {| clock := t; calls := calls w ++ [mkInvocation args (state b)] |}).
Proof. intros Hf. unfold attempt, invoke. rewrite Hf. reflexivity. Qed.

Lemma attempt_return func args b w r t :
  func args (clock w) = (Return r, t) →
  attempt func args b w =
    (Return r, reset b,
     {| clock := t; calls := calls w ++ [mkInvocation args (state b)] |}).
Proof. intros Hf. unfold attempt, invoke. rewrite Hf. reflexivity. Qed.

(** Failing calls on a closed breaker that stay below the threshold leave
    it closed and count every failure. *)
Lemma failing_calls_below (ops : list (Func A R * A)) : ∀ b w,
  state b = CLOSED →
  Forall (λ op, Fails op.1) ops →
  failures b + Z.of_nat (length ops) < threshold b →
  let b' := (call_each ops b w).1.2 in
  state b' = CLOSED ∧ failures b' = failures b + Z.of_nat (length ops) ∧
  threshold b' = threshold b ∧ resetTimeout b' = resetTimeout b ∧
  Forall (λ c, ∃ e, c = Throw e) (call_each ops b w).1.1.
Proof.
  induction ops as [|[func args] ops IH]; intros b w Hst Hall Hlt; simpl in *.
  - split_and!; [done | lia | done | done | constructor].
  - apply Forall_cons in Hall as [Hf Hall]. simpl in Hf.
    destruct (Hf args (clock w)) as (e & t & Hrun).
    unfold call. rewrite gate_not_open by congruence.
    rewrite (attempt_throw _ _ _ _ _ _ Hrun).
    set (b1 := recordFailure b t).
    set (w1 := {| clock := t; calls := _ |}).
    destruct (recordFailure_fields b t) as (Hth & Hrt & Hfl).
    destruct (recordFailure_below b t) as (Hs1 & _); [lia|].
    specialize (IH b1 w1). fold b1 in Hth, Hrt, Hfl, Hs1.
    destruct (call_each ops b1 w1) as [[cs b2] w2] eqn:Hrest. simpl in *.
    destruct IH as (H1 & H2 & H3 & H4 & H5); [congruence | done | lia |].
    split_and!; [done | lia | congruence | congruence |].
    constructor; eauto.
Qed.

Lemma at_rest_recordFailure b now :
  budget_spent b → state b ≠ HALF_OPEN ∨ threshold b <= failures b →
  at_rest (recordFailure b now).
Proof.
  intros Hb Hs. unfold at_rest, budget_spent, recordFailure in *.
  case_decide; simpl; split; try congruence; try lia.
  - intros Hne. specialize (Hb Hne). lia.
  - destruct Hs as [Hs|Hs]; [done | lia].
Qed.

Lemma at_rest_reset b : at_rest (reset b).
Proof. unfold at_rest, budget_spent. simpl. split; congruence. Qed.

Lemma budget_spent_gate b now b1 :
  budget_spent b → gate b now = inr b1 → budget_spent b1.
Proof.
  unfold gate, budget_spent. intros Hb Hg.
  destruct (state b) eqn:Hst; try case_decide; simplify_eq; simpl;
    rewrite ?Hst; intros; apply Hb; congruence.
Qed.

Lemma gate_state b now b1 :
  gate b now = inr b1 →
  (state b ≠ OPEN ∧ b1 = b) ∨
  (state b = OPEN ∧ nextAttempt b <= now ∧ b1 = set_state HALF_OPEN b).
Proof.
  unfold gate. intros Hg.
  destruct (state b) eqn:Hst; try case_decide; simplify_eq;
    [left | right | left]; split_and?; try done; lia.
Qed.

Lemma at_rest_call func args b w :
  at_rest b → at_rest (call func args b w).1.2.
Proof.
  intros [Hb Hs]. unfold call.
  destruct (gate b (clock w)) as [e|b1] eqn:Hg; simpl; [by split|].
  pose proof (budget_spent_gate _ _ _ Hb Hg) as Hb1.
  unfold attempt, invoke. destruct (func args (clock w)) as [[r|e] t]; simpl.
  - apply at_rest_reset.
  - apply at_rest_recordFailure; [done|].
    destruct (gate_state _ _ _ Hg) as [[_ ->]|(Ho & _ & ->)]; [by left|].
    right. simpl. apply Hb. congruence.
Qed.

Lemma Reachable_at_rest b : Reachable (A:=A) (R:=R) b → at_rest b.
Proof.
  induction 1 as [th to rt now|b func args w _ IH|b now _ IH|b _ _].
  - unfold at_rest, budget_spent. simpl. split; congruence.
  - by apply at_rest_call.
  - destruct IH. apply at_rest_recordFailure; auto.
  - apply at_rest_reset.
Qed.

(** C1: with a threshold T >= 1, a fresh breaker (CLOSED, no failures)
    is still CLOSED after k < T consecutive failing calls, having counted
    k failures; when k = T - 1, the next failing call, which records the
    T-th failure, leaves it OPEN with nextAttempt equal to the clock at
    that moment plus resetTimeout. *)
Theorem opens_at_threshold (T : Z) (to rt : option Z) (t0 : Z)
    (ops : list (Func A R * A)) func args w :
  1 <= T →
  Forall (λ op, Fails op.1) ops →
  Fails func →
  Z.of_nat (length ops) < T →
  let b0 := create (Some T) to rt t0 in
  let bk := (call_each ops b0 w).1.2 in
  let wk := (call_each ops b0 w).2 in
  (state b0 = CLOSED ∧ failures b0 = 0) ∧
  (state bk = CLOSED ∧ failures bk = Z.of_nat (length ops)) ∧
  (Z.of_nat (length ops) = T - 1 →
     let b' := (call func args bk wk).1.2 in
     let w' := (call func args bk wk).2 in
     state b' = OPEN ∧ failures b' = T ∧
     nextAttempt b' = clock w' + resetTimeout b0).
Proof.
  intros HT Hall Hf Hk b0 bk wk.
  destruct (failing_calls_below ops b0 w) as (Hs & Hn & Hth & Hrt & _);
    [done | done | simpl; lia |].
  fold bk in Hs, Hn, Hth, Hrt. simpl in Hn, Hth.
  split_and!; [done | done | done | lia |].
  intros Hlast b' w'. subst b' w'.
  destruct (Hf args (clock wk)) as (e & t & Hrun).
  unfold call. rewrite gate_not_open by congruence.
  rewrite (attempt_throw _ _ _ _ _ _ Hrun). simpl.
  destruct (recordFailure_fields bk t) as (_ & _ & Hfl).
  destruct (recordFailure_reaches bk t) as (Hopen & Hnext); [lia|].
  split_and!; [done | lia |]. rewrite Hnext, Hrt. reflexivity.
Qed.

Lemma call_admitted func args b w b1 :
  gate b (clock w) = inr b1 → call func args b w = attempt func args b1 w.
Proof. intros Hg. unfold call. by rewrite Hg. Qed.

Lemma gate_open_late b now :
  state b = OPEN → nextAttempt b <= now →
  gate b now = inr (set_state HALF_OPEN b).
Proof. intros Hst Ht. unfold gate. rewrite Hst. by rewrite decide_False by lia. Qed.

Lemma gate_open_early b now :
  state b = OPEN → now < nextAttempt b →
  gate b now = inl (Error "Circuit breaker is OPEN").
Proof. intros Hst Ht. unfold gate. rewrite Hst. by rewrite decide_True. Qed.

(** C2: a call on an OPEN breaker made strictly before nextAttempt throws
    the error 'Circuit breaker is OPEN', leaves the breaker and the record
    of invocations as they were (the operation is not invoked); made at or
    after nextAttempt it first puts the breaker in HALF_OPEN and then
    invokes the operation exactly once, in that state. *)
Theorem open_rejects_or_probes b func args w :
  state b = OPEN →
  (clock w < nextAttempt b →
     call func args b w = (Throw (Error "Circuit breaker is OPEN"), b, w)) ∧
  (nextAttempt b <= clock w →
     gate b (clock w) = inr (set_state HALF_OPEN b) ∧
     call func args b w = attempt func args (set_state HALF_OPEN b) w ∧
     calls (call func args b w).2 = calls w ++ [mkInvocation args HALF_OPEN] ∧
     (call func args b w).1.1 = (func args (clock w)).1).
Proof.
  intros Hst. split; intros Ht.
  - unfold call. by rewrite gate_open_early.
  - pose proof (gate_open_late b (clock w) Hst Ht) as Hg.
    rewrite (call_admitted _ _ _ _ _ Hg). split_and!; try done;
      unfold attempt, invoke;
      destruct (func args (clock w)) as [[r|e] t]; reflexivity.
Qed.

(** C3: let a call, in sequential use, have put the breaker in HALF_OPEN
    (which it does only on finding it OPEN with the cool-down over).  If the
    operation then succeeds, the call returns its result and leaves the
    breaker CLOSED with no failures; if it fails, the call rethrows its
    error, counts one more failure and leaves the breaker OPEN with
    nextAttempt set to the clock at that moment plus resetTimeout. *)
Theorem half_open_probe b func args w b1 :
  Reachable (A:=A) (R:=R) b →
  gate b (clock w) = inr b1 →
  state b1 = HALF_OPEN →
  (state b = OPEN ∧ nextAttempt b <= clock w) ∧
  (∀ r t, func args (clock w) = (Return r, t) →
     ∃ b' w', call func args b w = (Return r, b', w') ∧
              state b' = CLOSED ∧ failures b' = 0) ∧
  (∀ e t, func args (clock w) = (Throw e, t) →
     ∃ b' w', call func args b w = (Throw e, b', w') ∧
              failures b' = failures b1 + 1 ∧ state b' = OPEN ∧
              clock w' = t ∧ nextAttempt b' = t + resetTimeout b1).
Proof.
  intros Hr Hg Hh.
  destruct (Reachable_at_rest b Hr) as [Hb Hrest].
  pose proof (budget_spent_gate _ _ _ Hb Hg) as Hb1.
  rewrite (call_admitted func args _ _ _ Hg).
  split_and!.
  - destruct (gate_state _ _ _ Hg) as [[_ ->]|(Ho & _ & _)]; done.
  - destruct (gate_state _ _ _ Hg) as [[_ ->]|(_ & Ht & _)]; done.
  - intros r t Hrun. rewrite (attempt_return _ _ _ _ _ _ Hrun).
    eexists _, _. split_and!; reflexivity.
  - intros e t Hrun. rewrite (attempt_throw _ _ _ _ _ _ Hrun).
    destruct (recordFailure_fields b1 t) as (_ & _ & Hfl).
    destruct (recordFailure_reaches b1 t) as (Hopen & Hnext).
    { assert (threshold b1 <= failures b1) by (apply Hb1; congruence). lia. }
    eexists _, _. split_and!; [reflexivity | done | done | reflexivity | done].
Qed.

(** C10: in sequential use, whenever a breaker is OPEN or HALF_OPEN, at
    rest or inside a call, its failure count has reached the threshold;
    so a failure recorded during a HALF_OPEN probe opens it again, every
    call that completes leaves it CLOSED or OPEN, and getState between
    operations never gives HALF_OPEN. *)
Theorem half_open_is_transient b :
  Reachable (A:=A) (R:=R) b →
  (state b ≠ CLOSED → threshold b <= failures b) ∧
  getState b ≠ HALF_OPEN ∧
  ∀ func args w,
    (∀ b1, gate b (clock w) = inr b1 →
       (state b1 ≠ CLOSED → threshold b1 <= failures b1) ∧
       (state b1 = HALF_OPEN → ∀ now, state (recordFailure b1 now) = OPEN)) ∧
    (state (call func args b w).1.2 = CLOSED ∨
     state (call func args b w).1.2 = OPEN).
Proof.
  intros Hr. destruct (Reachable_at_rest b Hr) as [Hb Hs].
  split_and!; [done | done |]. intros func args w. split.
  - intros b1 Hg. pose proof (budget_spent_gate _ _ _ Hb Hg) as Hb1.
    split; [done|]. intros Hh now.
    apply recordFailure_reaches.
    assert (threshold b1 <= failures b1) by (apply Hb1; congruence). lia.
  - destruct (at_rest_call func args b w (conj Hb Hs)) as [_ Hs'].
    destruct (state (call func args b w).1.2); auto. done.
Qed.

End Sequential.

Import Scenarios.

Lemma service_error_fails : Fails service_error.
Proof. intros args now. eexists _, _. reflexivity. Qed.

Lemma tripped_reachable : Reachable (A:=unit) (R:=string) tripped.
Proof.
  change tripped with
    (call service_error ()
       (call service_error () fresh start).1.2
       (call service_error () fresh start).2).1.2.
  apply Reachable_call, Reachable_call, Reachable_create.
Qed.

(** The scenario of the test-suite: two failures trip the breaker, a call
    made at once is turned away, a call made 150 ms later goes through and
    closes it. *)
Example trip_and_recover :
  getState fresh = CLOSED ∧
  getState (call service_error () fresh start).1.2 = CLOSED ∧
  getState tripped = OPEN ∧ nextAttempt tripped = 102 ∧
  (call success () tripped after_trip).1.1
    = Throw (Error "Circuit breaker is OPEN") ∧
  (call success () tripped later).1.1 = Return "success" ∧
  getState (call success () tripped later).1.2 = CLOSED ∧
  length (calls (call success () tripped later).2) = 3%nat.
Proof. vm_compute. repeat split. Qed.

Lemma opens_at_threshold_witness :
  1 <= 2 ∧
  Forall (λ op, Fails op.1) [(service_error, ())] ∧
  Fails service_error ∧
  Z.of_nat (length [(service_error, ())]) < 2 ∧
  state (call_each [(service_error, ())] fresh start).1.2 = CLOSED ∧
  failures (call_each [(service_error, ())] fresh start).1.2 = 1 ∧
  state tripped = OPEN ∧
  nextAttempt tripped = clock after_trip + 100.
Proof.
  assert (H1 : 1 <= 2) by lia.
  assert (Hall : Forall (λ op : Func unit string * unit, Fails op.1)
                   [(service_error, ())])
    by (constructor; [exact service_error_fails | constructor]).
  assert (Hk : Z.of_nat (length [(service_error, ())]) < 2) by (simpl; lia).
  destruct (opens_at_threshold 2 (Some 1000) (Some 100) 0
              [(service_error, ())] service_error () start
              H1 Hall service_error_fails Hk) as (_ & [Hs Hn] & Hlast).
  destruct (Hlast eq_refl) as (Ho & _ & Hnext).
  split_and!; [exact H1 | exact Hall | exact service_error_fails | exact Hk
              | exact Hs | exact Hn | exact Ho | exact Hnext].
Defined.

Lemma open_rejects_or_probes_witness :
  state tripped = OPEN ∧
  clock after_trip < nextAttempt tripped ∧
  nextAttempt tripped <= clock later ∧
  call success () tripped after_trip
    = (Throw (Error "Circuit breaker is OPEN"), tripped, after_trip) ∧
  calls (call success () tripped later).2
    = calls later ++ [mkInvocation () HALF_OPEN].
Proof.
  assert (Hst : state tripped = OPEN) by reflexivity.
  assert (Hearly : clock after_trip < nextAttempt tripped) by reflexivity.
  assert (Hlate : nextAttempt tripped <= clock later) by (vm_compute; discriminate).
  destruct (open_rejects_or_probes tripped success () after_trip Hst)
    as [Hrej _].
  destruct (open_rejects_or_probes tripped success () later Hst)
    as [_ Hprobe].
  destruct (Hprobe Hlate) as (_ & _ & Hcalls & _).
  split_and!; [exact Hst | exact Hearly | exact Hlate | exact (Hrej Hearly)
              | exact Hcalls].
Defined.

Lemma half_open_probe_witness :
  Reachable (A:=unit) (R:=string) tripped ∧
  gate tripped (clock later) = inr (set_state HALF_OPEN tripped) ∧
  state (set_state HALF_OPEN tripped) = HALF_OPEN ∧
  (∃ b' w', call success () tripped later = (Return "success", b', w') ∧
            state b' = CLOSED ∧ failures b' = 0) ∧
  (∃ b' w', call service_error () tripped later
              = (Throw (Error "Service error"), b', w') ∧
            failures b' = failures (set_state HALF_OPEN tripped) + 1 ∧
            state b' = OPEN ∧ clock w' = 153 ∧
            nextAttempt b' = 153 + resetTimeout (set_state HALF_OPEN tripped)).
Proof.
  assert (Hg : gate tripped (clock later) = inr (set_state HALF_OPEN tripped))
    by reflexivity.
  assert (Hh : state (set_state HALF_OPEN tripped) = HALF_OPEN) by reflexivity.
  destruct (half_open_probe tripped success () later _ tripped_reachable Hg Hh)
    as (_ & Hok & _).
  destruct (half_open_probe tripped service_error () later _
              tripped_reachable Hg Hh) as (_ & _ & Hko).
  split_and!; [exact tripped_reachable | exact Hg | exact Hh
              | exact (Hok _ _ eq_refl) | exact (Hko _ _ eq_refl)].
Defined.

Lemma half_open_is_transient_witness :
  Reachable (A:=unit) (R:=string) tripped ∧
  getState tripped ≠ HALF_OPEN ∧
  threshold tripped <= failures tripped ∧
  (state (call success () tripped later).1.2 = CLOSED ∨
   state (call success () tripped later).1.2 = OPEN).
Proof.
  destruct (half_open_is_transient tripped tripped_reachable)
    as (Hb & Hs & Hcalls).
  destruct (Hcalls success () later) as [_ Hafter].
  split_and!; [exact tripped_reachable | exact Hs | | exact Hafter].
  apply Hb. discriminate.
Defined.

End BreakerProofs.

(** * Properties of the service registry *)

Module RegistryProofs.
Import ServiceRegistry.

Implicit Types (services : Services) (instance : ServiceInstance)
  (instances : list ServiceInstance).

Lemma strict_eq_string_spec (v : option Value) (s : string) :
  strict_eq_string v s = true ↔ v = Some (VString s).
Proof.
  unfold strict_eq_string. destruct v as [[]|]; try (split; congruence).
  rewrite bool_decide_eq_true. split; congruence.
Qed.

Lemma is_healthy_spec instance :
  is_healthy instance = true ↔ status_is "healthy" instance.
Proof. apply strict_eq_string_spec. Qed.

Lemma has_id_spec s instance : has_id s instance = true ↔ id_is s instance.
Proof. apply strict_eq_string_spec. Qed.

Lemma filter_sublist_mono {X} (P : X → Prop) `{!∀ x, Decision (P x)}
    (l k : list X) :
  l `sublist_of` k → filter P l `sublist_of` filter P k.
Proof.
  induction 1 as [|x l k _ IH|x l k _ IH].
  - constructor.
  - rewrite !filter_cons. case_decide; [by constructor | done].
  - rewrite filter_cons. case_decide; [by constructor | done].
Qed.

Lemma filter_all {X} (P : X → Prop) `{!∀ x, Decision (P x)} (l : list X) :
  Forall P l → filter P l = l.
Proof.
  induction 1 as [|x l Hx _ IH]; [done|].
  by rewrite filter_cons_True, IH.
Qed.

(** C7: discover(name) is the subsequence, in stored order, of the
    instances stored under name whose status is 'healthy': it is a
    subsequence of the stored list, holds healthy instances only, and every
    subsequence of the stored list made of healthy instances is a
    subsequence of it.  It is empty for an unknown name, holds no instance
    whose status is 'unhealthy', and, being a total function to lists, has
    no way to raise. *)
Theorem discover_healthy_subsequence services (name : string) :
  let stored := default [] (services !! name) in
  let found := discover services name in
  found `sublist_of` stored ∧
  Forall (status_is "healthy") found ∧
  (∀ l, l `sublist_of` stored → Forall (status_is "healthy") l →
        l `sublist_of` found) ∧
  (services !! name = None → found = []) ∧
  Forall (λ i, ¬ status_is "unhealthy" i) found.
Proof.
  intros stored found. subst found. unfold discover. fold stored.
  assert (Hall : Forall (status_is "healthy")
                   (filter (λ i, is_healthy i = true) stored)).
  { apply Forall_forall. intros i [Hi _]%list_elem_of_filter.
    by apply is_healthy_spec. }
  split_and!.
  - apply sublist_filter.
  - done.
  - intros l Hsub Hl.
    rewrite <- (filter_all (λ i, is_healthy i = true) l).
    + by apply filter_sublist_mono.
    + eapply Forall_impl; [done|]. intros i Hi. by apply is_healthy_spec.
  - intros Hnone. subst stored. by rewrite Hnone.
  - eapply Forall_impl; [done|]. unfold status_is. intros i Hi. congruence.
Qed.

(** C9: register(name, instance) puts at the end of name's list (the empty
    list when name is new) a copy of instance whose status is 'healthy' and
    whose registeredAt is the current time, every other property being that
    of instance; the entries stored before stay, under every name; the list
    is one longer, and this also when an entry with the same id is already
    there, so that the entries with that id are one more than before. *)
Theorem register_appends services (name : string) instance (now : Z) :
  let stored := default [] (services !! name) in
  let services' := register services name instance now in
  ∃ entry,
    services' !! name = Some (stored ++ [entry]) ∧
    entry !! "status" = Some (VString "healthy") ∧
    entry !! "registeredAt" = Some (VDate now) ∧
    (∀ p, p ≠ "status" → p ≠ "registeredAt" → entry !! p = instance !! p) ∧
    (∀ other, other ≠ name → services' !! other = services !! other) ∧
    length (stored ++ [entry]) = S (length stored) ∧
    (∀ id, id_is id instance →
       length (filter (λ i, has_id id i = true) (stored ++ [entry])) =
       S (length (filter (λ i, has_id id i = true) stored))).
Proof.
  intros stored services'. exists (new_entry instance now).
  subst stored services'. unfold register, new_entry.
  split_and!.
  - case_decide as Hk.
    + destruct Hk as [l Hl]. rewrite lookup_alter_eq, Hl. done.
    + apply eq_None_not_Some in Hk.
      rewrite lookup_alter_eq, lookup_insert_eq, Hk. done.
  - by rewrite lookup_insert_eq.
  - by rewrite lookup_insert_ne, lookup_insert_eq.
  - intros p H1 H2. by rewrite !lookup_insert_ne.
  - intros other Hne. rewrite lookup_alter_ne by done.
    case_decide; [done|]. by rewrite lookup_insert_ne.
  - rewrite length_app. simpl. lia.
  - intros id Hid. rewrite filter_app, length_app, filter_cons_True.
    + simpl. lia.
    + apply has_id_spec. unfold id_is in *. by rewrite !lookup_insert_ne.
Qed.

(** With unique ids, the entry that carries an id is the first one that
    does. *)
Lemma unique_id_first instances (k : nat) instance (id : string) :
  NoDup ((λ i, i !! "id") <$> instances) →
  instances !! k = Some instance → id_is id instance →
  ∀ j other, instances !! j = Some other → id_is id other → j = k.
Proof.
  intros Hnd Hk Hid j other Hj Hother.
  apply (NoDup_lookup _ j k (Some (VString id)) Hnd);
    rewrite list_lookup_fmap; [rewrite Hj | rewrite Hk]; simpl;
    unfold id_is in *; congruence.
Qed.

Lemma list_find_id instances (k : nat) instance (id : string) :
  instances !! k = Some instance → id_is id instance →
  (∀ j other, instances !! j = Some other → (j < k)%nat → ¬ id_is id other) →
  list_find (λ i, has_id id i = true) instances = Some (k, instance).
Proof.
  intros Hk Hid Hfirst. apply list_find_Some. split_and!; [done | |].
  - by apply has_id_spec.
  - intros j other Hj Hlt Hhas%has_id_spec. by eapply Hfirst.
Qed.

(** C8: markUnhealthy(name, id) leaves the registry as it is when name is
    unknown or no instance of name has that id.  Otherwise the first
    instance of name's list with that id gets the status 'unhealthy', and
    nothing else changes: the other names, the length and the other
    positions of the list, the other properties of the instance.  So, when
    ids are unique within the service and the instance was healthy,
    discover(name) afterwards is discover(name) before with that one
    instance taken out. *)
Theorem markUnhealthy_marks_first services (name id : string) :
  let services' := markUnhealthy services name id in
  (services !! name = None → services' = services) ∧
  (∀ instances,
     services !! name = Some instances →
     Forall (λ i, ¬ id_is id i) instances → services' = services) ∧
  (∀ instances (k : nat) instance,
     services !! name = Some instances →
     instances !! k = Some instance → id_is id instance →
     (∀ j other, instances !! j = Some other → (j < k)%nat → ¬ id_is id other) →
     (∀ other, other ≠ name → services' !! other = services !! other) ∧
     ∃ instances' instance',
       services' !! name = Some instances' ∧
       length instances' = length instances ∧
       (∀ j, j ≠ k → instances' !! j = instances !! j) ∧
       instances' !! k = Some instance' ∧
       status_is "unhealthy" instance' ∧
       (∀ p, p ≠ "status" → instance' !! p = instance !! p)) ∧
  (∀ instances (k : nat) instance,
     services !! name = Some instances →
     NoDup ((λ i, i !! "id") <$> instances) →
     instances !! k = Some instance → id_is id instance →
     status_is "healthy" instance →
     ∃ before after,
       discover services name = before ++ instance :: after ∧
       discover services' name = before ++ after ∧
       Forall (λ i, ¬ id_is id i) (before ++ after)).
Proof.
  intros services'. subst services'. unfold markUnhealthy. split_and!.
  - by intros ->.
  - intros instances -> Hnone.
    assert (list_find (λ i, has_id id i = true) instances = None) as ->; [|done].
    apply list_find_None. eapply Forall_impl; [done|].
    intros i Hi Hhas. by apply Hi, has_id_spec.
  - intros instances k instance -> Hk Hid Hfirst.
    rewrite (list_find_id _ _ _ _ Hk Hid Hfirst).
    pose proof (lookup_lt_Some _ _ _ Hk) as Hlen. split.
    + intros other Hne. by rewrite lookup_insert_ne.
    + eexists _, _. rewrite lookup_insert_eq. split_and!; [done | | | | |].
      * apply length_insert.
      * intros j Hj. by apply list_lookup_insert_ne.
      * by apply list_lookup_insert_eq.
      * unfold status_is. by rewrite lookup_insert_eq.
      * intros p Hp. by rewrite lookup_insert_ne.
  - intros instances k instance Hsome Hnd Hk Hid Hhealthy.
    pose proof (unique_id_first _ _ _ _ Hnd Hk Hid) as Honly.
    rewrite Hsome, (list_find_id _ _ _ _ Hk Hid).
    2:{ intros j other Hj Hlt Hother. specialize (Honly _ _ Hj Hother). lia. }
    pose proof (lookup_lt_Some _ _ _ Hk) as Hlen.
    unfold discover. rewrite lookup_insert_eq, Hsome. simpl.
    rewrite insert_take_drop by done.
    set (pre := take k instances). set (post := drop (S k) instances).
    assert (Hsplit : instances = pre ++ instance :: post)
      by (symmetry; by apply take_drop_middle).
    exists (filter (λ i, is_healthy i = true) pre),
           (filter (λ i, is_healthy i = true) post).
    split_and!.
    + rewrite Hsplit at 1.
      by rewrite filter_app, filter_cons_True by (by apply is_healthy_spec).
    + rewrite filter_app, filter_cons_False; [done|].
      rewrite is_healthy_spec. unfold status_is.
      rewrite lookup_insert_eq. congruence.
    + apply Forall_app. split; apply Forall_forall;
        intros i [_ Hi]%list_elem_of_filter Hother;
        apply list_elem_of_lookup in Hi as [j Hj].
      * apply lookup_take_Some in Hj as [Hj Hlt].
        specialize (Honly _ _ Hj Hother). lia.
      * subst post. rewrite lookup_drop in Hj.
        specialize (Honly _ _ Hj Hother). lia.
Qed.

(** Rounding never carries the product of a double below 1 and an
    integer [n] up to [n]. *)
Lemma double_mul_bound (m n : Z) :
  0 <= m < 2 ^ 53 → 0 < n →
  0 <= double_mul m n < n * 2 ^ 53.
Proof.
  intros Hm Hn. unfold double_mul.
  assert (Hp : 0 <= m * n <= n * 2 ^ 53 - n) by nia.
  set (p := m * n) in *. set (s := Z.log2 p - 52).
  case_decide as Hs; [lia|].
  assert (Hpos : 0 < p).
  { destruct (decide (0 < p)) as [|Hle]; [done|].
    exfalso. apply Hs. subst s. rewrite (Z.log2_nonpos p) by lia. lia. }
  pose proof (Z.log2_spec p Hpos) as [Hlog _].
  replace (Z.log2 p) with ((s - 1) + 53) in Hlog by lia.
  rewrite Z.pow_add_r in Hlog by lia.
  assert (Hpow : 2 ^ s = 2 * 2 ^ (s - 1)).
  { replace (2 ^ s) with (2 ^ Z.succ (s - 1)) by (f_equal; lia).
    apply Z.pow_succ_r. lia. }
  rewrite !Hpow. clear Hpow.
  set (h := 2 ^ (s - 1)) in *.
  assert (Hh : 0 < h) by (apply Z.pow_pos_nonneg; lia).
  assert (Hhn : h < n) by nia.
  pose proof (Z.div_mod p (2 * h)) as Hdm.
  pose proof (Z.mod_pos_bound p (2 * h)) as Hr.
  set (q := p / (2 * h)) in *. set (r := p mod (2 * h)) in *.
  assert (0 <= q) by (apply Z.div_pos; lia).
  repeat case_decide; try destruct (Z.even q); nia.
Qed.

Lemma random_index_in_range (m : Z) (n : nat) :
  0 <= m < 2 ^ 53 → (0 < n)%nat → (random_index m n < n)%nat.
Proof.
  intros Hm Hn. unfold random_index.
  destruct (double_mul_bound m (Z.of_nat n)) as [Hlo Hhi]; [done | lia |].
  assert (double_mul m (Z.of_nat n) / 2 ^ 53 < Z.of_nat n)
    by (apply Z.div_lt_upper_bound; lia).
  assert (0 <= double_mul m (Z.of_nat n) / 2 ^ 53)
    by (apply Z.div_pos; lia).
  lia.
Qed.

(** C6: for a draw of Math.random() in [0, 1), getHealthyInstance(name)
    throws if and only if discover(name) is empty, the error it throws
    then has the message 'No healthy instances found for service: '
    followed by name, and otherwise it returns an instance that is a member
    of discover(name). *)
Theorem getHealthyInstance_member services (name : string) (m : Z) :
  0 <= m < 2 ^ 53 →
  let found := discover services name in
  let outcome := getHealthyInstance services name m in
  ((∃ e, outcome = Throw e) ↔ found = []) ∧
  (∀ e, outcome = Throw e →
     e = Error ("No healthy instances found for service: " +:+ name) ∧
     message e = "No healthy instances found for service: " +:+ name) ∧
  (found ≠ [] →
     ∃ instance, outcome = Return (Some instance) ∧ instance ∈ found).
Proof.
  intros Hm found outcome. subst outcome. unfold getHealthyInstance.
  fold found. case_decide as Hlen.
  - apply length_zero_iff_nil in Hlen. split_and!.
    + split; [done | eauto].
    + intros e [= <-]. done.
    + done.
  - assert (Hne : found ≠ []) by (by intros ->).
    pose proof (random_index_in_range m (length found) Hm) as Hidx.
    destruct (lookup_lt_is_Some_2 found (random_index m (length found)))
      as [instance Hi]; [lia|].
    rewrite Hi. split_and!.
    + split; [by intros [e ?] | done].
    + by intros e ?.
    + intros _. exists instance. split; [done|].
      apply list_elem_of_lookup. eauto.
Qed.

Import Scenarios.

(** The scenarios of the test-suite: two healthy instances are found;
    marking one unhealthy leaves the other; an unknown service has none. *)
Example discover_scenarios :
  length (discover two_instances "test-service") = 2%nat ∧
  (λ i, i !! "id") <$> discover (markUnhealthy two_instances "test-service" "test-1")
                         "test-service" = [Some (VString "test-2")] ∧
  discover two_instances "non-existent-service" = [] ∧
  length (discover (markUnhealthy two_instances "non-existent-service" "test-1")
            "test-service") = 2%nat.
Proof. vm_compute. repeat split. Qed.

(** Products that fall half-way between two doubles go to the even one:
    [(2^54 - 1) / 3 / 2^53 * 3] is [2], not [2 - 2^-53]. *)
Example double_mul_tie :
  double_mul 6004799503160661 3 = 2 * 2 ^ 53 ∧
  random_index 6004799503160661 3 = 2%nat ∧
  random_index (2 ^ 53 - 1) 3 = 2%nat ∧
  random_index (2 ^ 52) 2 = 1%nat ∧
  random_index 0 2 = 0%nat.
Proof. vm_compute. repeat split. Qed.

Lemma getHealthyInstance_member_witness :
  0 <= 2 ^ 52 < 2 ^ 53 ∧
  discover two_instances "test-service" ≠ [] ∧
  ∃ instance,
    getHealthyInstance two_instances "test-service" (2 ^ 52)
      = Return (Some instance) ∧
    instance ∈ discover two_instances "test-service".
Proof.
  assert (Hm : 0 <= 2 ^ 52 < 2 ^ 53) by lia.
  assert (Hne : discover two_instances "test-service" ≠ [])
    by (vm_compute; discriminate).
  destruct (getHealthyInstance_member two_instances "test-service" (2 ^ 52) Hm)
    as (_ & _ & Hin).
  split_and!; [exact (proj1 Hm) | exact (proj2 Hm) | exact Hne | exact (Hin Hne)].
Defined.

End RegistryProofs.

(** * Properties of the gateway's proxy function *)

Module GatewayProofs.
Import ServiceRegistry Gateway.

Implicit Types (services : Services) (req : Request)
  (axios : Config → Completion HttpResponse).

Lemma getHealthyInstance_throws services (name : string) (m : Z) e :
  getHealthyInstance services name m = Throw e →
  e = Error ("No healthy instances found for service: " +:+ name).
Proof. unfold getHealthyInstance. case_decide; congruence. Qed.

(** C4, as the code has it: when getHealthyInstance fails, proxyRequest
    replies at once with status 500 'Internal gateway error' (the error
    thrown by the registry has neither a code nor a response, so it falls
    to the last branch of the catch block), and issues no outbound call. *)
Theorem resolution_failure_reply axios services (m : Z) req
    (name : string) (path : option string) :
  (∃ e, getHealthyInstance services name m = Throw e) →
  proxyRequest axios services m req name path = (internal_gateway_error, []) ∧
  status internal_gateway_error = 500.
Proof.
  intros [e He]. pose proof (getHealthyInstance_throws _ _ _ _ He) as ->.
  unfold proxyRequest, try_proxy. rewrite He. done.
Qed.


Import Scenarios.

(** C4 as stated, that a failed resolution is answered with 503, does not
    hold: with no instance registered for 'ghost', the reply has status
    500. *)
Lemma resolution_failure_not_503 :
  ¬ (∀ axios services (m : Z) req (name : string) (path : option string),
       (∃ e, getHealthyInstance services name m = Throw e) →
       status (proxyRequest axios services m req name path).1 = 503 ∧
       (proxyRequest axios services m req name path).2 = []).
Proof.
  intros Hclaim.
  destruct (Hclaim remote_ok empty_registry 0 get_users "ghost" None)
    as [Hstatus _].
  - eexists. reflexivity.
  - vm_compute in Hstatus. discriminate.
Qed.

Lemma resolution_failure_reply_witness :
  (∃ e, getHealthyInstance empty_registry "ghost" 0 = Throw e) ∧
  proxyRequest remote_ok empty_registry 0 get_users "ghost" None
    = (internal_gateway_error, []) ∧
  status internal_gateway_error = 500.
Proof.
  assert (Hfail : ∃ e, getHealthyInstance empty_registry "ghost" 0 = Throw e)
    by (eexists; reflexivity).
  split; [exact Hfail|].
  exact (resolution_failure_reply remote_ok empty_registry 0 get_users
           "ghost" None Hfail).
Defined.

(** A request for a registered service goes out once, with the 10 s
    timeout, and the remote answer comes back as it is. *)
Example proxy_forwards :
  (proxyRequest remote_ok two_instances (2 ^ 52) get_users "test-service"
     (Some "/users")).1
    = {| status := 200; data := VObject [("users", VArray [])] |} ∧
  (λ c, (cfg_method c, cfg_url c, cfg_timeout c, cfg_data c)) <$>
    (proxyRequest remote_ok two_instances (2 ^ 52) get_users "test-service"
       (Some "/users")).2
    = [("GET", (VString "http://localhost:3002", "/users"), 10000, None)].
Proof. vm_compute. repeat split. Qed.

End GatewayProofs.

(** * Further properties of the circuit breaker *)

Module BreakerExtras.
Import CircuitBreaker BreakerProofs MoreScenarios.

Section Sequential.
Context {A R : Type}.
Implicit Types (b : Breaker) (w : World A) (func : Func A R) (args : A)
  (ops : list (Func A R * A)).

Lemma gate_keeps_fields b now b1 :
  gate b now = inr b1 →
  threshold b1 = threshold b ∧ timeout b1 = timeout b ∧
  resetTimeout b1 = resetTimeout b ∧ failures b1 = failures b ∧
  nextAttempt b1 = nextAttempt b.
Proof.
  intros Hg. destruct (gate_state _ _ _ Hg) as [[_ ->]|(_ & _ & ->)]; done.
Qed.

Lemma gate_never_open b now b1 : gate b now = inr b1 → state b1 ≠ OPEN.
Proof.
  intros Hg. destruct (gate_state _ _ _ Hg) as [[? ->]|(_ & _ & ->)]; done.
Qed.

Lemma gate_admits b now :
  ¬ (state b = OPEN ∧ now < nextAttempt b) → ∃ b1, gate b now = inr b1.
Proof.
  intros Hadm. unfold gate. destruct (state b) eqn:Hst; eauto.
  case_decide; [|eauto]. destruct Hadm. done.
Qed.

Lemma call_keeps_config func args b w :
  threshold (call func args b w).1.2 = threshold b ∧
  timeout (call func args b w).1.2 = timeout b ∧
  resetTimeout (call func args b w).1.2 = resetTimeout b.
Proof.
  unfold call. destruct (gate b (clock w)) as [e|b1] eqn:Hg; [done|].
  destruct (gate_keeps_fields _ _ _ Hg) as (Hth & Hto & Hrt & _).
  unfold attempt, invoke. destruct (func args (clock w)) as [[r|e] t]; simpl.
  - by rewrite <- Hth, <- Hto, <- Hrt.
  - unfold recordFailure. case_decide; simpl; by rewrite <- Hth, <- Hto, <- Hrt.
Qed.

(** X1: a success wipes the failures counted so far.  After a call that
    is let through and succeeds, the breaker is CLOSED with no failures,
    and it takes threshold failures in a row to open it: fewer leave it
    CLOSED. *)
Theorem success_clears_failures b func args w r t ops :
  ¬ (state b = OPEN ∧ clock w < nextAttempt b) →
  func args (clock w) = (Return r, t) →
  Forall (λ op, Fails op.1) ops →
  Z.of_nat (length ops) < threshold b →
  let first := call func args b w in
  first.1.1 = Return r ∧
  state first.1.2 = CLOSED ∧ failures first.1.2 = 0 ∧
  let b' := (call_each ops first.1.2 first.2).1.2 in
  state b' = CLOSED ∧ failures b' = Z.of_nat (length ops).
Proof.
  intros Hadm Hrun Hall Hk first. subst first.
  destruct (gate_admits b (clock w) Hadm) as [b1 Hg].
  destruct (gate_keeps_fields _ _ _ Hg) as (Hth & _).
  rewrite (call_admitted _ _ _ _ _ Hg), (attempt_return _ _ _ _ _ _ Hrun).
  simpl. set (w1 := {| clock := t; calls := _ |}).
  destruct (failing_calls_below ops (reset b1) w1) as (Hs & Hn & _);
    [done | done | simpl; lia |].
  simpl in Hn. split_and!; [done | done | done | done | lia].
Qed.


Lemma call_with_timeout (to : Z) func args b w :
  call func args (with_timeout to b) w =
    ((call func args b w).1.1,
     with_timeout to (call func args b w).1.2,
     (call func args b w).2).
Proof.
  unfold call, gate. simpl. destruct (state b) eqn:Hst; simpl.
  - unfold attempt, invoke. simpl. rewrite Hst.
    destruct (func args (clock w)) as [[r|e] t]; simpl; [done|].
    unfold recordFailure. simpl. rewrite Hst. by case_decide.
  - case_decide; [done|]. unfold attempt, invoke. simpl.
    destruct (func args (clock w)) as [[r|e] t]; simpl; [done|].
    unfold recordFailure. simpl. by case_decide.
  - unfold attempt, invoke. simpl. rewrite Hst.
    destruct (func args (clock w)) as [[r|e] t]; simpl; [done|].
    unfold recordFailure. simpl. rewrite Hst. by case_decide.
Qed.

(** X3: the timeout given to the constructor is never read.  Two breakers
    that differ in it only go through any series of calls alike: same
    completions, same invocations, same clock, and breakers that still
    differ in the timeout only. *)
Theorem timeout_is_never_read (to : Z) ops : ∀ b w,
  call_each ops (with_timeout to b) w =
    ((call_each ops b w).1.1,
     with_timeout to (call_each ops b w).1.2,
     (call_each ops b w).2).
Proof.
  induction ops as [|[func args] ops IH]; intros b w; [done|].
  simpl. rewrite call_with_timeout.
  destruct (call func args b w) as [[c b1] w1]. simpl.
  rewrite IH. by destruct (call_each ops b1 w1) as [[cs b2] w2].
Qed.

Lemma call_invocations func args b w :
  ∃ extra,
    calls (call func args b w).2 = calls w ++ extra ∧
    (length extra ≤ 1)%nat ∧
    Forall (λ i, inv_state i ≠ OPEN) extra.
Proof.
  unfold call. destruct (gate b (clock w)) as [e|b1] eqn:Hg.
  - exists []. simpl.
    split_and!; [by rewrite app_nil_r | lia | constructor].
  - pose proof (gate_never_open _ _ _ Hg) as Hno.
    exists [mkInvocation args (state b1)]. unfold attempt, invoke.
    destruct (func args (clock w)) as [[r|e] t]; simpl;
      (split_and!; [done | done | by constructor]).
Qed.

(** X4: a series of calls gives one completion per call and invokes the
    operations at most once per call, never retrying; the invocations are
    added after those already recorded, and none is made while the breaker
    is in state OPEN. *)
Theorem invocations_bounded ops : ∀ b w,
  length (call_each ops b w).1.1 = length ops ∧
  ∃ extra,
    calls (call_each ops b w).2 = calls w ++ extra ∧
    (length extra ≤ length ops)%nat ∧
    Forall (λ i, inv_state i ≠ OPEN) extra.
Proof.
  induction ops as [|[func args] ops IH]; intros b w; simpl.
  - split; [done|]. exists [].
    split_and!; [by rewrite app_nil_r | done | constructor].
  - destruct (call_invocations func args b w) as (ex1 & Hc1 & Hl1 & Hf1).
    destruct (call func args b w) as [[c b1] w1]. simpl in *.
    destruct (IH b1 w1) as (Hlen & ex2 & Hc2 & Hl2 & Hf2).
    destruct (call_each ops b1 w1) as [[cs b2] w2]. simpl in *.
    split; [by rewrite Hlen|].
    exists (ex1 ++ ex2). rewrite Hc2, Hc1, length_app, app_assoc.
    split_and!; [done | lia | by apply Forall_app].
Qed.

(** X5: no call changes the configuration: threshold, timeout and
    resetTimeout after a series of calls are those the breaker had. *)
Theorem config_is_constant ops : ∀ b w,
  threshold (call_each ops b w).1.2 = threshold b ∧
  timeout (call_each ops b w).1.2 = timeout b ∧
  resetTimeout (call_each ops b w).1.2 = resetTimeout b.
Proof.
  induction ops as [|[func args] ops IH]; intros b w; [done|]. simpl.
  destruct (call_keeps_config func args b w) as (Hth & Hto & Hrt).
  destruct (call func args b w) as [[c b1] w1]. simpl in *.
  destruct (IH b1 w1) as (Hth' & Hto' & Hrt').
  destruct (call_each ops b1 w1) as [[cs b2] w2]. simpl in *.
  split_and!; congruence.
Qed.

Lemma failures_nonneg_call func args b w :
  0 <= failures b → 0 <= failures (call func args b w).1.2.
Proof.
  intros Hn. unfold call.
  destruct (gate b (clock w)) as [e|b1] eqn:Hg; [done|].
  destruct (gate_keeps_fields _ _ _ Hg) as (_ & _ & _ & Hfl & _).
  unfold attempt, invoke. destruct (func args (clock w)) as [[r|e] t]; simpl;
    [done|].
  destruct (recordFailure_fields b1 t) as (_ & _ & ->). lia.
Qed.

Lemma Reachable_failures_nonneg b :
  Reachable (A:=A) (R:=R) b → 0 <= failures b.
Proof.
  induction 1 as [th to rt now|b func args w _ IH|b now _ IH|b _ _].
  - done.
  - by apply failures_nonneg_call.
  - destruct (recordFailure_fields b now) as (_ & _ & ->). lia.
  - done.
Qed.

(** X6: a threshold of 1 or less, zero and negative numbers included,
    gives a breaker that starts CLOSED but that any failed call leaves
    OPEN: in sequential use, whenever the operation fails, or the call is
    turned away, the breaker is OPEN afterwards. *)
Theorem low_threshold_opens_at_once b func args w :
  Reachable (A:=A) (R:=R) b →
  threshold b <= 1 →
  (∃ e, (call func args b w).1.1 = Throw e) →
  state (call func args b w).1.2 = OPEN.
Proof.
  intros Hr Hth [e He]. pose proof (Reachable_failures_nonneg b Hr) as Hn.
  unfold call in *. unfold gate in *.
  destruct (state b) eqn:Hst.
  - unfold attempt, invoke in *.
    destruct (func args (clock w)) as [[r|e'] t]; simpl in *; [done|].
    apply recordFailure_reaches. lia.
  - case_decide; [done|]. unfold attempt, invoke in *.
    destruct (func args (clock w)) as [[r|e'] t]; simpl in *; [done|].
    apply recordFailure_reaches. simpl. lia.
  - unfold attempt, invoke in *.
    destruct (func args (clock w)) as [[r|e'] t]; simpl in *; [done|].
    apply recordFailure_reaches. lia.
Qed.

End Sequential.

Import Scenarios.

Lemma zero_threshold_reachable :
  Reachable (A:=unit) (R:=string) (create (Some 0) None None 0).
Proof. apply Reachable_create. Qed.

Lemma success_clears_failures_witness :
  ¬ (state tripped = OPEN ∧ clock later < nextAttempt tripped) ∧
  success () (clock later) = (Return "success", 153) ∧
  Forall (λ op, Fails op.1) [(service_error, ())] ∧
  Z.of_nat (length [(service_error, ())]) < threshold tripped ∧
  failures tripped = 2 ∧
  failures (call success () tripped later).1.2 = 0 ∧
  state (call_each [(service_error, ())]
           (call success () tripped later).1.2
           (call success () tripped later).2).1.2 = CLOSED.
Proof.
  assert (Hadm : ¬ (state tripped = OPEN ∧ clock later < nextAttempt tripped))
    by (intros [_ Hlt]; vm_compute in Hlt; discriminate).
  assert (Hrun : success () (clock later) = (Return "success", 153))
    by reflexivity.
  assert (Hall : Forall (λ op : Func unit string * unit, Fails op.1)
                   [(service_error, ())])
    by (constructor; [exact service_error_fails | constructor]).
  assert (Hk : Z.of_nat (length [(service_error, ())]) < threshold tripped)
    by (vm_compute; reflexivity).
  destruct (success_clears_failures tripped success () later "success" 153
              [(service_error, ())] Hadm Hrun Hall Hk)
    as (_ & _ & Hzero & Hclosed & _).
  split_and!; [exact Hadm | exact Hrun | exact Hall | exact Hk | reflexivity
              | exact Hzero | exact Hclosed].
Defined.


Lemma low_threshold_opens_at_once_witness :
  Reachable (A:=unit) (R:=string) (create (Some 0) None None 0) ∧
  threshold (create (Some 0) None None 0) <= 1 ∧
  state (create (Some 0) None None 0) = CLOSED ∧
  (∃ e, (call service_error () (create (Some 0) None None 0) start).1.1
          = Throw e) ∧
  length (calls (call service_error () (create (Some 0) None None 0) start).2)
    = 1%nat ∧
  state (call service_error () (create (Some 0) None None 0) start).1.2 = OPEN.
Proof.
  assert (Hth : threshold (create (Some 0) None None 0) <= 1)
    by (vm_compute; discriminate).
  assert (Hthrow : ∃ e, (call service_error ()
                           (create (Some 0) None None 0) start).1.1 = Throw e)
    by (eexists; reflexivity).
  split_and!; [exact zero_threshold_reachable | exact Hth | reflexivity
              | exact Hthrow | reflexivity |].
  exact (low_threshold_opens_at_once (create (Some 0) None None 0)
           service_error () start zero_threshold_reachable Hth Hthrow).
Defined.

End BreakerExtras.

(** * Further properties of the service registry *)

Module RegistryExtras.
Import ServiceRegistry RegistryProofs MoreScenarios Scenarios.

Implicit Types (services : Services) (instance : ServiceInstance)
  (instances : list ServiceInstance).

Lemma filter_swap {X} (P Q : X → Prop)
    `{!∀ x, Decision (P x), !∀ x, Decision (Q x)} (l : list X) :
  filter P (filter Q l) = filter Q (filter P l).
Proof. rewrite !list_filter_filter. apply list_filter_iff. intros x. tauto. Qed.

Lemma not_has_id_spec (id : string) instance :
  has_id id instance ≠ true ↔ ¬ id_is id instance.
Proof. by rewrite has_id_spec. Qed.

Lemma discover_other_name services services' (other : string) :
  services' !! other = services !! other →
  discover services' other = discover services other.
Proof. intros Heq. unfold discover. by rewrite Heq. Qed.


Lemma unregister_other services (name id other : string) :
  other ≠ name → unregister services name id !! other = services !! other.
Proof.
  intros Hne. unfold unregister.
  destruct (services !! name) as [instances|]; [|done].
  by rewrite lookup_insert_ne.
Qed.

Lemma register_lookup services (name : string) instance (now : Z) :
  register services name instance now !! name =
    Some (default [] (services !! name) ++ [new_entry instance now]).
Proof.
  unfold register. case_decide as Hk.
  - destruct Hk as [l Hl]. by rewrite lookup_alter_eq, Hl.
  - apply eq_None_not_Some in Hk.
    by rewrite lookup_alter_eq, lookup_insert_eq, Hk.
Qed.

Lemma register_other services (name other : string) instance (now : Z) :
  other ≠ name →
  register services name instance now !! other = services !! other.
Proof.
  intros Hne. unfold register. rewrite lookup_alter_ne by done.
  case_decide; [done|]. by rewrite lookup_insert_ne.
Qed.

Lemma new_entry_healthy instance (now : Z) :
  is_healthy (new_entry instance now) = true.
Proof.
  apply is_healthy_spec. unfold status_is, new_entry.
  by rewrite lookup_insert_eq.
Qed.

Lemma new_entry_id instance (now : Z) :
  new_entry instance now !! "id" = instance !! "id".
Proof. unfold new_entry. by rewrite !lookup_insert_ne. Qed.

Lemma getHealthyInstance_returns services (name : string) (m : Z) result :
  getHealthyInstance services name m = Return (Some result) →
  result ∈ discover services name.
Proof.
  unfold getHealthyInstance. case_decide; [done|]. intros [= Hi].
  apply list_elem_of_lookup. eauto.
Qed.

(** X7: unregister(name, id) takes out of name's list every instance with
    that id, however many there are, and keeps the others in their order;
    other names are untouched, and an unknown name leaves the registry as
    it is.  discover(name) afterwards is discover(name) before without the
    instances that have the id. *)
Theorem unregister_removes_all services (name id : string) :
  let services' := unregister services name id in
  (services !! name = None → services' = services) ∧
  (∀ instances,
     services !! name = Some instances →
     ∃ kept,
       services' !! name = Some kept ∧
       kept `sublist_of` instances ∧
       Forall (λ i, ¬ id_is id i) kept ∧
       (∀ l, l `sublist_of` instances → Forall (λ i, ¬ id_is id i) l →
             l `sublist_of` kept)) ∧
  (∀ other, other ≠ name → services' !! other = services !! other) ∧
  discover services' name =
    filter (λ i, has_id id i ≠ true) (discover services name) ∧
  Forall (λ i, ¬ id_is id i) (discover services' name).
Proof.
  intros services'. subst services'.
  assert (Hdisc : discover (unregister services name id) name =
                    filter (λ i, has_id id i ≠ true) (discover services name)).
  { unfold unregister, discover.
    destruct (services !! name) as [instances|] eqn:Hs.
    - rewrite lookup_insert_eq. simpl. apply filter_swap.
    - by rewrite Hs. }
  split_and!.
  - unfold unregister. by intros ->.
  - intros instances Hs. unfold unregister. rewrite Hs, lookup_insert_eq.
    eexists. split_and!; [done | apply sublist_filter | |].
    + apply Forall_forall. intros i [Hi _]%list_elem_of_filter.
      by apply not_has_id_spec.
    + intros l Hsub Hl.
      rewrite <- (filter_all (λ i, has_id id i ≠ true) l).
      * by apply filter_sublist_mono.
      * eapply Forall_impl; [done|]. intros i Hi. by apply not_has_id_spec.
  - intros other Hne. by apply unregister_other.
  - done.
  - rewrite Hdisc. apply Forall_forall.
    intros i [Hi _]%list_elem_of_filter. by apply not_has_id_spec.
Qed.

(** X8: unregister is idempotent: doing it a second time with the same
    name and id changes nothing. *)
Theorem unregister_idempotent services (name id : string) :
  unregister (unregister services name id) name id =
    unregister services name id.
Proof.
  destruct (services !! name) as [instances|] eqn:Hs.
  - assert (Hfirst : unregister services name id =
              <[name := filter (λ i, has_id id i ≠ true) instances]> services)
      by (unfold unregister; by rewrite Hs).
    rewrite Hfirst. unfold unregister.
    rewrite lookup_insert_eq, insert_insert_eq.
    f_equal. apply filter_all, Forall_forall.
    by intros i [Hi _]%list_elem_of_filter.
  - assert (Hfirst : unregister services name id = services)
      by (unfold unregister; by rewrite Hs).
    by rewrite !Hfirst.
Qed.

Lemma markUnhealthy_again services (name id : string) :
  markUnhealthy (markUnhealthy services name id) name id =
    markUnhealthy services name id.
Proof.
  destruct (services !! name) as [instances|] eqn:Hs.
  2:{ assert (Hfirst : markUnhealthy services name id = services)
        by (unfold markUnhealthy; by rewrite Hs).
      by rewrite !Hfirst. }
  destruct (list_find (λ i, has_id id i = true) instances)
    as [[k instance]|] eqn:Hfind.
  2:{ assert (Hfirst : markUnhealthy services name id = services)
        by (unfold markUnhealthy; by rewrite Hs, Hfind).
      by rewrite !Hfirst. }
  assert (Hfirst : markUnhealthy services name id =
            <[name := <[k := <["status" := VString "unhealthy"]> instance]>
                        instances]> services)
    by (unfold markUnhealthy; by rewrite Hs, Hfind).
  apply list_find_Some in Hfind as (Hk & Hid%has_id_spec & Hleast).
  pose proof (lookup_lt_Some _ _ _ Hk) as Hlen.
  rewrite Hfirst. unfold markUnhealthy. rewrite lookup_insert_eq.
  rewrite (list_find_id _ k (<["status" := VString "unhealthy"]> instance) id).
  - by rewrite insert_insert_eq, list_insert_insert_eq, insert_insert_eq.
  - by apply list_lookup_insert_eq.
  - unfold id_is in *. by rewrite lookup_insert_ne.
  - intros j other Hj Hlt Hother.
    rewrite list_lookup_insert_ne in Hj by lia.
    apply (Hleast j other Hj Hlt). by apply has_id_spec.
Qed.

(** X9: markUnhealthy is idempotent: a second call with the same name and
    id finds the same first instance, already unhealthy, and changes
    nothing; so does any number of further calls. *)
Theorem markUnhealthy_idempotent services (name id : string) (n : nat) :
  Nat.iter (S n) (λ s, markUnhealthy s name id) services =
    markUnhealthy services name id.
Proof.
  induction n as [|n IH]; [done|].
  change (Nat.iter (S (S n)) (λ s, markUnhealthy s name id) services)
    with (markUnhealthy
            (Nat.iter (S n) (λ s, markUnhealthy s name id) services) name id).
  rewrite IH. apply markUnhealthy_again.
Qed.


(** X11: register(name, instance) adds exactly the new entry, at the end,
    to what discover(name) returns, and leaves discover of every other
    name as it was. *)
Theorem discover_register services (name other : string) instance (now : Z) :
  discover (register services name instance now) name =
    discover services name ++ [new_entry instance now] ∧
  (other ≠ name →
   discover (register services name instance now) other =
     discover services other).
Proof.
  split.
  - unfold discover at 1. rewrite register_lookup. simpl.
    rewrite filter_app, filter_cons_True by apply new_entry_healthy. done.
  - intros Hne. apply discover_other_name. by apply register_other.
Qed.

(** X12: once an instance has been registered under a name,
    getHealthyInstance(name) does not throw: for every draw of
    Math.random() in [0, 1) it returns a healthy instance. *)
Theorem register_makes_resolvable services (name : string) instance
    (now m : Z) :
  0 <= m < 2 ^ 53 →
  ∃ found,
    getHealthyInstance (register services name instance now) name m
      = Return (Some found) ∧
    status_is "healthy" found.
Proof.
  intros Hm. unfold getHealthyInstance.
  set (found := discover (register services name instance now) name).
  assert (Hlen : (0 < length found)%nat).
  { subst found. unfold discover at 1. rewrite register_lookup. simpl.
    rewrite filter_app, filter_cons_True by apply new_entry_healthy.
    rewrite length_app. simpl. lia. }
  case_decide; [lia|].
  pose proof (random_index_in_range m (length found) Hm Hlen) as Hidx.
  destruct (lookup_lt_is_Some_2 found _ Hidx) as [i Hi].
  exists i. rewrite Hi. split; [done|].
  apply list_elem_of_lookup_2 in Hi. subst found. unfold discover in Hi.
  apply list_elem_of_filter in Hi as [Hi _]. by apply is_healthy_spec.
Qed.

(** X13: when an id is registered twice, markUnhealthy only ever reaches
    the first entry: a healthy entry with the same id further down the
    list is still returned by discover, however often markUnhealthy is
    called. *)
Theorem duplicate_survives_markUnhealthy services (name id : string)
    instances (j k : nat) first second (n : nat) :
  services !! name = Some instances →
  instances !! j = Some first → id_is id first →
  instances !! k = Some second → status_is "healthy" second →
  (j < k)%nat →
  second ∈ discover (Nat.iter n (λ s, markUnhealthy s name id) services) name.
Proof.
  intros Hs Hj Hid Hk Hhealthy Hlt.
  assert (Hin : ∀ l : list ServiceInstance,
            l !! k = Some second →
            second ∈ filter (λ i, is_healthy i = true) l).
  { intros l Hl. apply list_elem_of_filter.
    split; [by apply is_healthy_spec|]. apply list_elem_of_lookup. eauto. }
  destruct n as [|n].
  { simpl. unfold discover. rewrite Hs. by apply Hin. }
  assert (Hiter : Nat.iter (S n) (λ s, markUnhealthy s name id) services =
                    markUnhealthy services name id).
  { induction n as [|n IH]; [done|].
    change (Nat.iter (S (S n)) (λ s, markUnhealthy s name id) services)
      with (markUnhealthy
              (Nat.iter (S n) (λ s, markUnhealthy s name id) services) name id).
    rewrite IH. apply markUnhealthy_again. }
  rewrite Hiter. unfold markUnhealthy. rewrite Hs.
  destruct (list_find _ instances) as [[p marked]|] eqn:Hfind.
  - apply list_find_Some in Hfind as (Hp & _ & Hleast).
    assert (p ≠ k).
    { intros ->. apply (Hleast j first Hj Hlt). by apply has_id_spec. }
    unfold discover. rewrite lookup_insert_eq. simpl.
    apply Hin. by rewrite list_lookup_insert_ne.
  - unfold discover. rewrite Hs. by apply Hin.
Qed.

(** X14: after unregister(name, id), getHealthyInstance(name) never
    returns an instance with that id, whatever Math.random() draws. *)
Theorem unregistered_never_selected services (name id : string) (m : Z) found :
  getHealthyInstance (unregister services name id) name m
    = Return (Some found) →
  ¬ id_is id found.
Proof.
  intros Hin%getHealthyInstance_returns.
  unfold unregister, discover in Hin.
  destruct (services !! name) as [instances|] eqn:Hs.
  - rewrite lookup_insert_eq in Hin. simpl in Hin.
    apply list_elem_of_filter in Hin as [_ Hin].
    apply list_elem_of_filter in Hin as [Hin _]. by apply not_has_id_spec.
  - rewrite Hs in Hin. simpl in Hin. by apply elem_of_nil in Hin.
Qed.

(** X15: when the ids of a service are unique, getHealthyInstance(name)
    after markUnhealthy(name, id) never returns the instance with that id,
    whatever Math.random() draws. *)
Theorem marked_never_selected services (name id : string) (m : Z) found :
  NoDup ((λ i, i !! "id") <$> default [] (services !! name)) →
  getHealthyInstance (markUnhealthy services name id) name m
    = Return (Some found) →
  ¬ id_is id found.
Proof.
  intros Hnd Hin%getHealthyInstance_returns Hfound.
  unfold markUnhealthy, discover in Hin.
  destruct (services !! name) as [instances|] eqn:Hs; simpl in *.
  2:{ rewrite Hs in Hin. by apply elem_of_nil in Hin. }
  destruct (list_find _ instances) as [[k marked]|] eqn:Hfind.
  - apply list_find_Some in Hfind as (Hk & Hid%has_id_spec & _).
    pose proof (lookup_lt_Some _ _ _ Hk) as Hlen.
    rewrite lookup_insert_eq in Hin. simpl in Hin.
    apply list_elem_of_filter in Hin as [Hh%is_healthy_spec Hin].
    apply list_elem_of_lookup in Hin as [j Hj].
    destruct (decide (j = k)) as [->|Hne].
    + rewrite list_lookup_insert_eq in Hj by done. injection Hj as <-.
      unfold status_is in Hh. rewrite lookup_insert_eq in Hh. congruence.
    + rewrite list_lookup_insert_ne in Hj by done.
      by pose proof (unique_id_first _ _ _ _ Hnd Hk Hid _ _ Hj Hfound).
  - apply list_find_None in Hfind. rewrite Hs in Hin. simpl in Hin.
    apply list_elem_of_filter in Hin as [_ Hin].
    rewrite Forall_forall in Hfind. apply (Hfind _ Hin).
    by apply has_id_spec.
Qed.

(** X16: registering an instance and then unregistering its id, when no
    instance of the name had that id, gives back the list the name had
    (the empty list, now stored, when the name was new) and the same
    discover(name) as at the start. *)
Theorem register_then_unregister services (name id : string) instance
    (now : Z) :
  id_is id instance →
  Forall (λ i, ¬ id_is id i) (default [] (services !! name)) →
  unregister (register services name instance now) name id
    = <[name := default [] (services !! name)]> services ∧
  discover (unregister (register services name instance now) name id) name
    = discover services name.
Proof.
  intros Hid Hfresh.
  assert (Hback : unregister (register services name instance now) name id
                    = <[name := default [] (services !! name)]> services).
  { unfold unregister. rewrite register_lookup.
    rewrite filter_app, filter_cons_False, app_nil_r.
    2:{ intros Hne. apply Hne, has_id_spec. unfold id_is in *.
        by rewrite new_entry_id. }
    rewrite filter_all.
    2:{ eapply Forall_impl; [done|]. intros i Hi. by apply not_has_id_spec. }
    apply map_eq. intros key. destruct (decide (key = name)) as [->|Hne].
    - by rewrite !lookup_insert_eq.
    - by rewrite !lookup_insert_ne, register_other. }
  split; [done|]. rewrite Hback. unfold discover.
  by rewrite lookup_insert_eq.
Qed.

Lemma test_ids_unique :
  NoDup ((λ i : ServiceInstance, i !! "id") <$>
           default [] (two_instances !! "test-service")).
Proof.
  assert (Hids : (λ i : ServiceInstance, i !! "id") <$>
                   default [] (two_instances !! "test-service")
                 = [Some (VString "test-1"); Some (VString "test-2")])
    by (vm_compute; reflexivity).
  rewrite Hids. apply NoDup_cons. split.
  - intros Hin%list_elem_of_singleton. discriminate.
  - apply NoDup_singleton.
Qed.

Lemma register_makes_resolvable_witness :
  0 <= 2 ^ 52 < 2 ^ 53 ∧
  ∃ found,
    getHealthyInstance (register empty_registry "ghost" test_1 5) "ghost"
      (2 ^ 52) = Return (Some found) ∧
    status_is "healthy" found.
Proof.
  assert (Hm : 0 <= 2 ^ 52 < 2 ^ 53) by lia.
  split; [exact Hm|].
  exact (register_makes_resolvable empty_registry "ghost" test_1 5 (2 ^ 52) Hm).
Defined.

Lemma duplicate_survives_markUnhealthy_witness :
  (∃ instances first second,
     registered_twice !! "test-service" = Some instances ∧
     instances !! 0%nat = Some first ∧ id_is "test-1" first ∧
     instances !! 2%nat = Some second ∧ status_is "healthy" second ∧
     id_is "test-1" second) ∧
  ∃ second,
    id_is "test-1" second ∧
    second ∈ discover
      (Nat.iter 3 (λ s, markUnhealthy s "test-service" "test-1")
         registered_twice) "test-service".
Proof.
  set (first := new_entry test_1 1000).
  set (second := new_entry test_1 2000).
  set (instances := [first; new_entry test_2 1001; second]).
  assert (Hs : registered_twice !! "test-service" = Some instances)
    by (vm_compute; reflexivity).
  assert (Hj : instances !! 0%nat = Some first) by reflexivity.
  assert (Hk : instances !! 2%nat = Some second) by reflexivity.
  assert (Hid : id_is "test-1" first) by (vm_compute; reflexivity).
  assert (Hid2 : id_is "test-1" second) by (vm_compute; reflexivity).
  assert (Hh : status_is "healthy" second) by (vm_compute; reflexivity).
  assert (Hlt : (0 < 2)%nat) by lia.
  split.
  - exists instances, first, second.
    split_and!; [exact Hs | exact Hj | exact Hid | exact Hk | exact Hh
                | exact Hid2].
  - exists second. split; [exact Hid2|].
    exact (duplicate_survives_markUnhealthy registered_twice "test-service"
             "test-1" instances 0 2 first second 3 Hs Hj Hid Hk Hh Hlt).
Defined.

Lemma unregistered_never_selected_witness :
  (∃ found,
     getHealthyInstance (unregister two_instances "test-service" "test-1")
       "test-service" 0 = Return (Some found) ∧
     ¬ id_is "test-1" found).
Proof.
  assert (Hget : getHealthyInstance
                   (unregister two_instances "test-service" "test-1")
                   "test-service" 0 = Return (Some (new_entry test_2 1001)))
    by (vm_compute; reflexivity).
  exists (new_entry test_2 1001). split; [exact Hget|].
  exact (unregistered_never_selected two_instances "test-service" "test-1" 0
           _ Hget).
Defined.

Lemma marked_never_selected_witness :
  NoDup ((λ i : ServiceInstance, i !! "id") <$>
           default [] (two_instances !! "test-service")) ∧
  (∃ found,
     getHealthyInstance (markUnhealthy two_instances "test-service" "test-1")
       "test-service" 0 = Return (Some found) ∧
     ¬ id_is "test-1" found).
Proof.
  assert (Hget : getHealthyInstance
                   (markUnhealthy two_instances "test-service" "test-1")
                   "test-service" 0 = Return (Some (new_entry test_2 1001)))
    by (vm_compute; reflexivity).
  split; [exact test_ids_unique|].
  exists (new_entry test_2 1001). split; [exact Hget|].
  exact (marked_never_selected two_instances "test-service" "test-1" 0
           _ test_ids_unique Hget).
Defined.

Lemma register_then_unregister_witness :
  id_is "test-1" test_1 ∧
  Forall (λ i, ¬ id_is "test-1" i) (default [] (empty_registry !! "ghost")) ∧
  unregister (register empty_registry "ghost" test_1 5) "ghost" "test-1"
    = <["ghost" := []]> empty_registry.
Proof.
  assert (Hid : id_is "test-1" test_1) by (vm_compute; reflexivity).
  assert (Hfresh : Forall (λ i : ServiceInstance, ¬ id_is "test-1" i)
                     (default [] (empty_registry !! "ghost")))
    by (vm_compute; constructor).
  split_and!; [exact Hid | exact Hfresh |].
  exact (proj1 (register_then_unregister empty_registry "ghost" "test-1"
                  test_1 5 Hid Hfresh)).
Defined.

End RegistryExtras.

(** * Further properties of the gateway's proxy function *)

Module GatewayExtras.
Import ServiceRegistry Gateway RegistryProofs RegistryExtras Scenarios.

Implicit Types (services : Services) (req : Request)
  (axios : Config → Completion HttpResponse).



Lemma getHealthyInstance_resolves services (name : string) (m : Z) :
  0 <= m < 2 ^ 53 → discover services name ≠ [] →
  ∃ instance, getHealthyInstance services name m = Return (Some instance).
Proof.
  intros Hm Hne. unfold getHealthyInstance. cbv zeta.
  case_decide as Hlen; [by apply length_zero_iff_nil in Hlen|].
  pose proof (random_index_in_range m (length (discover services name)) Hm)
    as Hidx.
  destruct (lookup_lt_is_Some_2 (discover services name)
              (random_index m (length (discover services name))))
    as [instance Hi]; [lia|].
  exists instance. by rewrite Hi.
Qed.

Lemma getHealthyInstance_empty services (name : string) (m : Z) :
  discover services name = [] →
  ∃ e, getHealthyInstance services name m = Throw e.
Proof.
  intros Hnil. unfold getHealthyInstance. cbv zeta. rewrite Hnil. simpl.
  eauto.
Qed.

(** X18: for a draw of Math.random() in [0, 1), proxyRequest issues an
    outbound call exactly when discover(name) is not empty, and then it
    issues one. *)
Theorem proxy_calls_iff_resolvable axios services (m : Z) req
    (name : string) (path : option string) :
  0 <= m < 2 ^ 53 →
  ((proxyRequest axios services m req name path).2 = [] ↔
   discover services name = []) ∧
  (discover services name ≠ [] →
   length (proxyRequest axios services m req name path).2 = 1%nat).
Proof.
  intros Hm. unfold proxyRequest, try_proxy.
  destruct (discover services name) as [|i l] eqn:Hd.
  - destruct (getHealthyInstance_empty services name m Hd) as [e ->].
    simpl. by split.
  - destruct (getHealthyInstance_resolves services name m Hm)
      as [instance ->]; [by rewrite Hd|].
    destruct (axios (make_config req instance (default "" path))) as [r|e];
      simpl; (split; [split; [done | by intros ?] | done]).
Qed.


Lemma proxy_calls_iff_resolvable_witness :
  0 <= 0 < 2 ^ 53 ∧
  discover two_instances "test-service" ≠ [] ∧
  length (proxyRequest remote_ok two_instances 0 get_users
            "test-service" None).2 = 1%nat.
Proof.
  assert (Hm : 0 <= 0 < 2 ^ 53) by lia.
  assert (Hne : discover two_instances "test-service" ≠ [])
    by (vm_compute; discriminate).
  split_and!; [exact (proj1 Hm) | exact (proj2 Hm) | exact Hne |].
  exact (proj2 (proxy_calls_iff_resolvable remote_ok two_instances 0
                  get_users "test-service" None Hm) Hne).
Defined.

End GatewayExtras.

(** * Properties of the authentication middleware *)

Module AuthProofs.
Import Stdlib.Strings.Ascii.
Import Gateway Auth MoreScenarios.

Lemma split_on_no_space (a : string) :
  no_space a → split_on " " a = [a].
Proof.
  induction a as [|c a IH]; [done|]. intros [Hc Ha]. simpl.
  rewrite decide_False by done. by rewrite IH.
Qed.

Lemma split_on_app (a b : string) :
  no_space a → split_on " " (a +:+ " " +:+ b) = a :: split_on " " b.
Proof.
  induction a as [|c a IH]; [done|]. intros [Hc Ha]. simpl.
  rewrite decide_False by done. by rewrite IH.
Qed.

Lemma truthy_with_space (a b : string) :
  truthy (VString (a +:+ " " +:+ b)) = true.
Proof. by destruct a. Qed.

Lemma auth_of_header verify next (req : Request) (header : string) :
  headers req !! "authorization" = Some (VString header) →
  authenticateToken verify next req =
    if truthy (VString header) then
      match split_on " " header !! 1%nat with
      | Some token =>
          if truthy (VString token)
          then Return (verify_and_continue verify next token)
          else Return deny
      | None => Return deny
      end
    else Return deny.
Proof. intros Hh. unfold authenticateToken. by rewrite Hh. Qed.

(** X19: the middleware never looks at the first word of the
    Authorization header, nor at anything after the second: whatever the
    scheme (even none), and whatever follows the token after a space, the
    outcome is that of a request whose header is 'Bearer ' followed by the
    token. *)
Theorem auth_scheme_ignored verify next (scheme token rest : string)
    (req bearer : Request) :
  no_space scheme →
  no_space token →
  headers bearer !! "authorization" = Some (VString ("Bearer " +:+ token)) →
  headers req !! "authorization"
    = Some (VString (scheme +:+ " " +:+ token)) ∨
  headers req !! "authorization"
    = Some (VString (scheme +:+ " " +:+ token +:+ " " +:+ rest)) →
  authenticateToken verify next req = authenticateToken verify next bearer.
Proof.
  intros Hs Ht Hb Hreq.
  assert (Hbearer : no_space "Bearer") by (repeat split; discriminate).
  rewrite (auth_of_header _ _ bearer _ Hb).
  change ("Bearer " +:+ token) with ("Bearer" +:+ " " +:+ token).
  destruct Hreq as [Hreq|Hreq]; rewrite (auth_of_header _ _ req _ Hreq);
    rewrite !truthy_with_space, !split_on_app by done;
    rewrite (split_on_no_space token Ht); [done|].
  by destruct (split_on " " rest).
Qed.

(** X20: the middleware lets a request through to the next handler only
    with a payload that jwt.verify returned for the second word of the
    Authorization header, and stores that payload in req.user.  Whenever it
    returns it has either called next and sent nothing, or sent 401 'Access
    denied' without touching the request, or sent 403 'Invalid token'. *)
Theorem auth_outcomes verify next (req : Request) (result : AuthResult) :
  authenticateToken verify next req = Return result →
  (next_called result = true →
   ∃ header token user,
     headers req !! "authorization" = Some (VString header) ∧
     split_on " " header !! 1%nat = Some token ∧
     token ≠ "" ∧
     verify token = Return user ∧
     req_user result = Some user) ∧
  ((reply result = None ∧ next_called result = true) ∨
   (reply result = Some access_denied ∧ next_called result = false ∧
    req_user result = None) ∨
   reply result = Some invalid_token).
Proof.
  unfold authenticateToken.
  destruct (headers req !! "authorization") as [v|] eqn:Hh; simpl.
  2:{ intros [= <-]. split; [done | by right; left]. }
  destruct v as [| |b|n|header|ms|elems|props]; simpl;
    try (intros [= <-]; split; [done | by right; left]);
    try done.
  - destruct b; [done|]. intros [= <-]. split; [done | by right; left].
  - destruct (negb (n =? 0)); [done|].
    intros [= <-]. split; [done | by right; left].
  - case_bool_decide as Hempty; simpl.
    { intros [= <-]. split; [done | by right; left]. }
    destruct (split_on " " header !! 1%nat) as [token|] eqn:Hsplit.
    2:{ intros [= <-]. split; [done | by right; left]. }
    case_bool_decide as Htok; simpl.
    { intros [= <-]. split; [done | by right; left]. }
    intros [= <-]. unfold verify_and_continue.
    destruct (verify token) as [user|e] eqn:Hv; [|by split; [|right; right]].
    assert (Hpass : ∀ r,
              r = match next user with
                  | Return _ => {| req_user := Some user; next_called := true;
                                   reply := None |}
                  | Throw _ => {| req_user := Some user; next_called := true;
                                  reply := Some invalid_token |}
                  end →
              (next_called r = true →
               ∃ header0 token0 user0,
                 Some (VString header) = Some (VString header0) ∧
                 split_on " " header0 !! 1%nat = Some token0 ∧
                 token0 ≠ "" ∧ verify token0 = Return user0 ∧
                 req_user r = Some user0) ∧
              ((reply r = None ∧ next_called r = true) ∨
               (reply r = Some access_denied ∧ next_called r = false ∧
                req_user r = None) ∨
               reply r = Some invalid_token)).
    { intros r ->. destruct (next user); simpl;
        (split; [intros _; by exists header, token, user
                | by (left + (right; right))]). }
    destruct user; try (by apply Hpass); by split; [|right; right].
Qed.

Lemma auth_scheme_ignored_witness :
  no_space "Basic" ∧ no_space "good" ∧
  authenticateToken verify_good next_ok (with_authorization "Basic good")
    = authenticateToken verify_good next_ok (with_authorization "Bearer good") ∧
  authenticateToken verify_good next_ok (with_authorization " good and more")
    = authenticateToken verify_good next_ok (with_authorization "Bearer good").
Proof.
  assert (Hs : no_space "Basic") by (repeat split; discriminate).
  assert (He : no_space "") by exact I.
  assert (Ht : no_space "good") by (repeat split; discriminate).
  assert (Hb : headers (with_authorization "Bearer good") !! "authorization"
               = Some (VString ("Bearer " +:+ "good"))) by reflexivity.
  split_and!; [exact Hs | exact Ht | |].
  - exact (auth_scheme_ignored verify_good next_ok "Basic" "good" ""
             (with_authorization "Basic good")
             (with_authorization "Bearer good") Hs Ht Hb
             (or_introl eq_refl)).
  - exact (auth_scheme_ignored verify_good next_ok "" "good" "and more"
             (with_authorization " good and more")
             (with_authorization "Bearer good") He Ht Hb
             (or_intror eq_refl)).
Defined.

Lemma auth_outcomes_witness :
  authenticateToken verify_good next_ok (with_authorization "Bearer good")
    = Return {| req_user := Some (VObject [("userId", VString "user123")]);
                next_called := true; reply := None |} ∧
  ∃ header token user,
    headers (with_authorization "Bearer good") !! "authorization"
      = Some (VString header) ∧
    split_on " " header !! 1%nat = Some token ∧
    token ≠ "" ∧
    verify_good token = Return user.
Proof.
  assert (Hrun : authenticateToken verify_good next_ok
                   (with_authorization "Bearer good")
                 = Return {| req_user :=
                               Some (VObject [("userId", VString "user123")]);
                             next_called := true; reply := None |})
    by (vm_compute; reflexivity).
  split; [exact Hrun|].
  destruct (auth_outcomes verify_good next_ok _ _ Hrun) as [Hnext _].
  destruct (Hnext eq_refl) as (header & token & user & H1 & H2 & H3 & H4 & _).
  exists header, token, user. split_and!; [exact H1 | exact H2 | exact H3
                                          | exact H4].
Defined.

(** The cases of the test-suite: no header and a header of one word get
    401, a token that does not verify gets 403. *)
Example auth_rejections :
  authenticateToken verify_good next_ok
      {| method := "GET"; headers := ∅; body := VObject [] |}
    = Return deny ∧
  authenticateToken verify_good next_ok (with_authorization "InvalidFormat")
    = Return deny ∧
  authenticateToken verify_good next_ok
      (with_authorization "Bearer invalid-token")
    = Return {| req_user := None; next_called := false;
                reply := Some invalid_token |} ∧
  status access_denied = 401 ∧ status invalid_token = 403.
Proof. vm_compute. repeat split. Qed.

End AuthProofs.

(** * Properties of the message queue *)

Module QueueProofs.
Import MessageQueue MoreScenarios.

Section Queues.
Context {S : Type}.
Implicit Types (mq : Queue S) (st : S) (callback : Callback S)
  (message : Message).

Lemma createQueue_lookup mq (queueName : string) :
  queues (createQueue mq queueName) !! queueName
    = Some (default [] (queues mq !! queueName)).
Proof.
  unfold createQueue. case_decide as Hk.
  - destruct Hk as [l Hl]. by rewrite Hl.
  - apply eq_None_not_Some in Hk. simpl. by rewrite lookup_insert_eq, Hk.
Qed.

Lemma createQueue_other mq (queueName other : string) :
  other ≠ queueName →
  queues (createQueue mq queueName) !! other = queues mq !! other.
Proof.
  intros Hne. unfold createQueue. case_decide; [done|].
  simpl. by rewrite lookup_insert_ne.
Qed.

Lemma createQueue_subscribers mq (queueName : string) :
  subscribers (createQueue mq queueName) = subscribers mq.
Proof. unfold createQueue. by case_decide. Qed.

Lemma notify_ignores_throws (callbacks : list (Callback S)) message : ∀ st,
  foldl (λ st callback,
           match callback message st with
           | (Return _, st') => st'
           | (Throw _, st') => st'
           end) st callbacks
  = foldl (λ st callback, (callback message st).2) st callbacks.
Proof.
  induction callbacks as [|callback callbacks IH]; intros st; [done|].
  simpl. rewrite <- IH. by destruct (callback message st) as [[[]|e] st'].
Qed.

Lemma notifySubscribers_fold mq (queueName : string) message st :
  notifySubscribers mq queueName message st
  = foldl (λ st callback, (callback message st).2) st
      (default [] (subscribers mq !! queueName)).
Proof. apply notify_ignores_throws. Qed.

(** X21: sendMessage(queueName, body) always puts the new message, with
    the drawn id, the body as given and zero attempts, at the end of the
    queue (created when missing) and returns its id; the other queues and
    the subscriptions are untouched.  Every subscriber of the queue is run
    once, in the order of subscription, on that message, whether or not
    subscribers before it throw. *)
Theorem sendMessage_enqueues_and_notifies mq (queueName : string)
    (body : Value) (id : string) (now : Z) st :
  let sent := {| msg_id := id; msg_body := body; msg_timestamp := now;
                 msg_attempts := 0 |} in
  let result := sendMessage mq queueName body id now st in
  result.1.1 = id ∧
  queues result.1.2 !! queueName
    = Some (default [] (queues mq !! queueName) ++ [sent]) ∧
  (∀ other, other ≠ queueName →
     queues result.1.2 !! other = queues mq !! other) ∧
  subscribers result.1.2 = subscribers mq ∧
  result.2 = foldl (λ st callback, (callback sent st).2) st
               (default [] (subscribers mq !! queueName)).
Proof.
  intros sent result. subst result. unfold sendMessage. simpl.
  split_and!.
  - done.
  - by rewrite lookup_alter_eq, createQueue_lookup.
  - intros other Hne. by rewrite lookup_alter_ne, createQueue_other.
  - apply createQueue_subscribers.
  - unfold notifySubscribers. simpl. rewrite createQueue_subscribers.
    apply notify_ignores_throws.
Qed.

(** X22: receiveMessages takes messages off the front and removes them:
    what two receives in a row return, one after the other, is what a
    single receive of the summed count returns, and the queue object is
    the same afterwards.  No message is handed out twice or lost: the two
    batches followed by what is left make up the original queue. *)
Theorem receive_in_order mq (queueName : string) (k j : Z)
    (queue : list Message) :
  queues mq !! queueName = Some queue →
  0 <= k → 0 <= j →
  let first := receiveMessages mq queueName (Some k) in
  let second := receiveMessages first.2 queueName (Some j) in
  let both := receiveMessages mq queueName (Some (k + j)) in
  first.1 ++ second.1 = both.1 ∧
  second.2 = both.2 ∧
  first.1 ++ second.1 ++ default [] (queues second.2 !! queueName) = queue.
Proof.
  intros Hq Hk Hj first second both. subst first second both.
  unfold receiveMessages. rewrite Hq. simpl. rewrite lookup_insert_eq.
  simpl. rewrite lookup_insert_eq. simpl.
  replace (Z.to_nat (k + j)) with (Z.to_nat k + Z.to_nat j)%nat by lia.
  rewrite drop_drop, insert_insert_eq.
  split_and!.
  - apply take_take_drop.
  - done.
  - rewrite app_assoc, take_take_drop. apply take_drop.
Qed.

(** X23: the edge cases of receiveMessages.  For a name that has no queue
    it returns nothing and leaves the object as it is, without creating
    the queue; a count of zero or less returns nothing and keeps the
    messages; a count of at least the queue's length returns the whole
    queue and leaves it empty; with no count given, one message is
    taken. *)
Theorem receive_edge_cases mq (queueName : string) (k : Z) :
  (queues mq !! queueName = None →
   ∀ count, receiveMessages mq queueName count = ([], mq)) ∧
  (∀ queue,
     queues mq !! queueName = Some queue →
     (k <= 0 →
      (receiveMessages mq queueName (Some k)).1 = [] ∧
      queues (receiveMessages mq queueName (Some k)).2 !! queueName
        = Some queue) ∧
     (Z.of_nat (length queue) <= k →
      (receiveMessages mq queueName (Some k)).1 = queue ∧
      queues (receiveMessages mq queueName (Some k)).2 !! queueName
        = Some []) ∧
     (receiveMessages mq queueName None).1 = take 1 queue).
Proof.
  split.
  - intros Hnone count. unfold receiveMessages. by rewrite Hnone.
  - intros queue Hq. unfold receiveMessages. rewrite Hq. simpl.
    split_and!.
    + intros Hk. replace (Z.to_nat k) with 0%nat by lia.
      by rewrite lookup_insert_eq.
    + intros Hk. rewrite lookup_insert_eq.
      by rewrite take_ge, drop_ge by lia.
    + done.
Qed.

(** X24: a message sent to a queue comes out after the messages that were
    already waiting: receiving as many messages as the queue then holds
    returns the old messages in their order followed by the new one, and
    leaves the queue empty. *)
Theorem send_then_receive_fifo mq (queueName : string) (body : Value)
    (id : string) (now : Z) st :
  let waiting := default [] (queues mq !! queueName) in
  let sent := {| msg_id := id; msg_body := body; msg_timestamp := now;
                 msg_attempts := 0 |} in
  let mq' := (sendMessage mq queueName body id now st).1.2 in
  let received :=
    receiveMessages mq' queueName (Some (Z.of_nat (length waiting) + 1)) in
  received.1 = waiting ++ [sent] ∧
  queues received.2 !! queueName = Some [] ∧
  (getQueueStats mq' queueName).1.1 = Datatypes.S (length waiting) ∧
  (getQueueStats received.2 queueName).1.1 = 0%nat.
Proof.
  intros waiting sent mq' received. subst received mq'.
  unfold receiveMessages, getQueueStats, sendMessage. simpl.
  rewrite lookup_alter_eq, createQueue_lookup. simpl. fold waiting.
  rewrite lookup_insert_eq. simpl.
  replace (Z.to_nat (Z.of_nat (length waiting) + 1))
    with (length (waiting ++ [sent])) by (rewrite length_app; simpl; lia).
  rewrite take_ge, drop_ge by done.
  split_and!; [done | done | rewrite length_app; simpl; lia | done].
Qed.

(** X25: subscribe(queueName, callback) leaves the messages alone and puts
    the callback after the subscribers the queue already has: a message
    for that queue goes to the earlier subscribers first and then to the
    new one, and a message for another queue does not reach it. *)
Theorem subscribe_adds_last mq (queueName other : string) callback
    message st :
  queues (subscribe mq queueName callback) = queues mq ∧
  notifySubscribers (subscribe mq queueName callback) queueName message st
    = (callback message (notifySubscribers mq queueName message st)).2 ∧
  (other ≠ queueName →
   notifySubscribers (subscribe mq queueName callback) other message st
     = notifySubscribers mq other message st).
Proof.
  assert (Hsame : subscribers (subscribe mq queueName callback) !! queueName
                  = Some (default [] (subscribers mq !! queueName)
                          ++ [callback])).
  { unfold subscribe. simpl. rewrite lookup_alter_eq. case_decide as Hk.
    - destruct Hk as [l Hl]. by rewrite Hl.
    - apply eq_None_not_Some in Hk. by rewrite lookup_insert_eq, Hk. }
  split_and!.
  - done.
  - rewrite !notifySubscribers_fold, Hsame. simpl. by rewrite foldl_app.
  - intros Hne. rewrite !notifySubscribers_fold. f_equal. f_equal.
    unfold subscribe. simpl. rewrite lookup_alter_ne by done.
    case_decide; [done|]. by rewrite lookup_insert_ne.
Qed.

End Queues.

Lemma receive_in_order_witness :
  let mq := (sendMessage
               (sendMessage
                  (sendMessage two_subscribers "payment-events" VNull "m1" 1
                     0%nat).1.2
                  "payment-events" VNull "m2" 2 0%nat).1.2
               "payment-events" VNull "m3" 3 0%nat).1.2 in
  (∃ queue, queues mq !! "payment-events" = Some queue) ∧
  0 <= 1 ∧ 0 <= 2 ∧
  msg_id <$> (receiveMessages mq "payment-events" (Some 1)).1 = ["m1"] ∧
  (receiveMessages mq "payment-events" (Some 1)).1 ++
    (receiveMessages (receiveMessages mq "payment-events" (Some 1)).2
       "payment-events" (Some 2)).1
  = (receiveMessages mq "payment-events" (Some (1 + 2))).1.
Proof.
  intros mq.
  destruct (queues mq !! "payment-events") as [queue|] eqn:Hq;
    [|vm_compute in Hq; discriminate].
  assert (H1 : 0 <= 1) by lia. assert (H2 : 0 <= 2) by lia.
  split_and!; [by exists queue | exact H1 | exact H2 | reflexivity |].
  exact (proj1 (receive_in_order mq "payment-events" 1 2 queue Hq H1 H2)).
Defined.

(** Two subscribers, the first of which throws: both see every message. *)
Example throwing_subscriber_is_skipped_over :
  (sendMessage two_subscribers "payment-events" VNull "m1" 1 0%nat).2 = 2%nat ∧
  (sendMessage two_subscribers "order-events" VNull "m1" 1 0%nat).2 = 0%nat ∧
  (getQueueStats two_subscribers "payment-events").1 = (0%nat, 2%nat).
Proof. vm_compute. repeat split. Qed.

End QueueProofs.

(** * Properties of the in-memory database *)

Module DatabaseProofs.
Import Gateway Database MoreScenarios.

Implicit Types (table : Table) (db : Db) (record user updates : Row).

Lemma table_get_set_eq table (key : string) record :
  table_get (table_set table key record) key = Some record.
Proof.
  induction table as [|[k v] rest IH]; simpl.
  - by rewrite decide_True.
  - case_decide as Hk; simpl; [by rewrite decide_True|].
    by rewrite decide_False.
Qed.

Lemma table_get_set_ne table (key other : string) record :
  other ≠ key →
  table_get (table_set table key record) other = table_get table other.
Proof.
  intros Hne. induction table as [|[k v] rest IH]; simpl.
  - by rewrite decide_False.
  - case_decide as Hk; simpl.
    + subst k. by rewrite !decide_False.
    + case_decide; [done | apply IH].
Qed.


Lemma table_set_length table (key : string) record :
  is_Some (table_get table key) →
  length (table_set table key record) = length table.
Proof.
  induction table as [|[k v] rest IH]; simpl; [by intros [? ?]|].
  case_decide; [done|]. intros Hsome. simpl. by rewrite IH.
Qed.

Lemma table_get_delete table (key other : string) :
  table_get (table_delete table key).2 other =
    if decide (other = key) then None else table_get table other.
Proof.
  unfold table_delete. simpl.
  induction table as [|[k v] rest IH]; simpl; [by case_decide|].
  rewrite filter_cons. simpl. destruct (decide (k = key)) as [->|Hk].
  - rewrite decide_False by (by intros ?). rewrite IH.
    case_decide as Ho; [done|]. by rewrite decide_False.
  - rewrite decide_True by done. simpl. rewrite IH.
    destruct (decide (k = other)) as [->|Hko]; [|done].
    by rewrite decide_False.
Qed.

Section Clock.
Variable toISOString : Z → string.

Lemma stamp_fields record (id : string) (now : Z) :
  stamp toISOString record id now !! "id" = Some (VString id) ∧
  stamp toISOString record id now !! "createdAt"
    = Some (VString (toISOString now)) ∧
  (∀ p, p ≠ "id" → p ≠ "createdAt" →
        stamp toISOString record id now !! p = record !! p).
Proof.
  unfold stamp. split_and!.
  - by rewrite lookup_insert_ne, lookup_insert_eq.
  - by rewrite lookup_insert_eq.
  - intros p H1 H2. by rewrite !lookup_insert_ne.
Qed.



(** X28: updateUser on an id that is not stored returns null and changes
    nothing.  On a stored id it returns, and stores under the same id, the
    record with every property of the updates written over it (an id
    property in the updates included: the key does not follow) and
    updatedAt set; the other users, and the number of users, stay. *)
Theorem updateUser_merges db (id : string) updates (now : Z) :
  (getUserById db id = None →
   updateUser toISOString db id updates now = (None, db)) ∧
  (∀ user,
     getUserById db id = Some user →
     ∃ updated,
       (updateUser toISOString db id updates now).1 = Some updated ∧
       getUserById (updateUser toISOString db id updates now).2 id
         = Some updated ∧
       updated !! "updatedAt" = Some (VString (toISOString now)) ∧
       (∀ p, p ≠ "updatedAt" →
          updated !! p = match updates !! p with
                         | Some v => Some v
                         | None => user !! p
                         end) ∧
       (∀ other, other ≠ id →
          getUserById (updateUser toISOString db id updates now).2 other
            = getUserById db other) ∧
       length (getAllUsers (updateUser toISOString db id updates now).2)
         = length (getAllUsers db)).
Proof.
  unfold updateUser, getUserById, getAllUsers. split.
  - by intros ->.
  - intros user Hget. rewrite Hget. simpl.
    exists (apply_updates toISOString user updates now).
    split_and!; [done | apply table_get_set_eq | | | |].
    + unfold apply_updates. by rewrite lookup_insert_eq.
    + intros p Hp. unfold apply_updates.
      rewrite lookup_insert_ne by done. rewrite lookup_union.
      destruct (updates !! p), (user !! p); done.
    + intros other Hne. by apply table_get_set_ne.
    + unfold table_values. rewrite !length_fmap.
      apply table_set_length. by rewrite Hget.
Qed.

(** X29: deleteUser answers true exactly when the id was stored; after
    it the id is gone, every other id gives what it gave before, and a
    second deleteUser of the same id answers false. *)
Theorem deleteUser_removes db (id : string) :
  let found := (deleteUser db id).1 in
  let db' := (deleteUser db id).2 in
  (found = true ↔ is_Some (getUserById db id)) ∧
  getUserById db' id = None ∧
  (∀ other, other ≠ id → getUserById db' other = getUserById db other) ∧
  (deleteUser db' id).1 = false.
Proof.
  intros found db'. subst found db'. unfold deleteUser, getUserById. simpl.
  pose proof (table_get_delete (users db) id) as Hdel.
  unfold table_delete in Hdel. simpl in Hdel.
  split_and!.
  - apply bool_decide_eq_true.
  - by rewrite Hdel, decide_True.
  - intros other Hne. by rewrite Hdel, decide_False.
  - unfold table_delete. simpl. apply bool_decide_eq_false.
    rewrite Hdel, decide_True by done. by intros [? ?].
Qed.

(** X30: createPayment keeps a truthy status given by the caller and
    fills in 'pending' otherwise (no status, or a falsy one such as the
    empty string); the payment it returns is what getPaymentById(id) then
    returns, and the users table is untouched. *)
Theorem createPayment_status db payment (id : string) (now : Z) :
  let created := (createPayment toISOString db payment id now).1 in
  let db' := (createPayment toISOString db payment id now).2 in
  getPaymentById db' id = Some created ∧
  users db' = users db ∧
  created !! "id" = Some (VString id) ∧
  (∀ given, payment !! "status" = Some given → truthy given = true →
     created !! "status" = Some given) ∧
  (payment !! "status" = None → created !! "status" = Some (VString "pending")) ∧
  (∀ given, payment !! "status" = Some given → truthy given = false →
     created !! "status" = Some (VString "pending")).
Proof.
  intros created db'. subst created db'.
  unfold createPayment, getPaymentById. simpl.
  destruct (stamp_fields payment id now) as (Hid & _ & Hrest).
  assert (Hstatus : stamp toISOString payment id now !! "status"
                    = payment !! "status") by (by apply Hrest).
  unfold default_status. rewrite Hstatus.
  split_and!; [apply table_get_set_eq | done | | | |].
  - by rewrite lookup_insert_ne.
  - intros given Hg Ht. rewrite lookup_insert_eq, Hg. simpl. by rewrite Ht.
  - intros Hnone. by rewrite lookup_insert_eq, Hnone.
  - intros given Hg Ht. rewrite lookup_insert_eq, Hg. simpl. by rewrite Ht.
Qed.

End Clock.


(** The cases of the test-suite: a created user is found by id and by
    email; an unknown id gives undefined; updating adds the new
    properties; deleting answers true and then the user is gone. *)
Example database_scenarios :
  let db := (createUser iso empty_db alice "id-1" 0).2 in
  getUserById db "id-1" = Some (stamp iso alice "id-1" 0) ∧
  getUserByEmail db "test@example.com" = Some (stamp iso alice "id-1" 0) ∧
  getUserById db "non-existent-id" = None ∧
  (deleteUser db "id-1").1 = true ∧
  getUserById (deleteUser db "id-1").2 "id-1" = None ∧
  (updateUser iso db "missing" ∅ 5).1 = None.
Proof. vm_compute. repeat split. Qed.

End DatabaseProofs.
